(** * qiime2.sdk.context: the memoizing pipeline context

    A shallow embedding of [src/qiime2/sdk/context.py] (class [Context]) and
    the properties of its dispatcher, output reconstruction and reference
    tracking.

    Python objects are mutable and shared; the embedding threads an explicit
    [World] through every method: the heap of cache objects (a [Context]
    holds a reference into it), the process-wide globals the constructor
    reads, and a call log in which the calls the module makes on the lock,
    the pools, the index and the action are recorded in order.
    Exceptions are values of [Exn]; a raising computation keeps the world it
    had reached, as Python does. *)

From Stdlib Require Import ZArith Ascii.
From stdpp Require Import gmap strings list fin_maps functions sorting.

Set Warnings "-register-all".

Local Open Scope Z_scope.
Local Open Scope string_scope.
Local Open Scope list_scope.

(** ** Python values *)

(** The values that travel through the module: the arguments of a call, the
    handles kept in a pool index and the results that are loaded.  The module
    inspects a value in one way only, the test
    [isinstance(arg, qiime2.sdk.proxy.Proxy)]. *)
Inductive Value : Type :=
  | VNone
  | VInt (z : Z)
  | VStr (s : string)
  | VArtifact (uuid : string)
  | VAlias (pool : string) (uuid : string)
  | VProxy (future : nat)
  | VCallable (name : string).

Global Instance Value_eq_dec : EqDecision Value.
Proof. solve_decision. Defined.

Definition Value_encode (v : Value)
  : unit + (Z + (string + (string + (string * string + (nat + string))))) :=
  match v with
  | VNone => inl tt
  | VInt z => inr (inl z)
  | VStr s => inr (inr (inl s))
  | VArtifact u => inr (inr (inr (inl u)))
  | VAlias p u => inr (inr (inr (inr (inl (p, u)))))
  | VProxy n => inr (inr (inr (inr (inr (inl n)))))
  | VCallable s => inr (inr (inr (inr (inr (inr s)))))
  end.

Definition Value_decode
  (x : unit + (Z + (string + (string + (string * string + (nat + string))))))
  : Value :=
  match x with
  | inl _ => VNone
  | inr (inl z) => VInt z
  | inr (inr (inl s)) => VStr s
  | inr (inr (inr (inl u))) => VArtifact u
  | inr (inr (inr (inr (inl (p, u))))) => VAlias p u
  | inr (inr (inr (inr (inr (inl n))))) => VProxy n
  | inr (inr (inr (inr (inr (inr s))))) => VCallable s
  end.

Global Instance Value_countable : Countable Value.
Proof.
  apply (inj_countable' Value_encode Value_decode).
  intros []; reflexivity.
Defined.

(** [isinstance(v, qiime2.sdk.proxy.Proxy)] *)
Definition is_proxy (v : Value) : bool :=
  match v with
  | VProxy _ => true
  | _ => false
  end.

(** Keyword arguments and every other insertion-ordered [dict] with string
    keys whose order the code observes: the list of its items. *)
Definition Kwargs : Type := list (string * Value).

(** ** Exceptions *)

Inductive Exn : Type :=
  | KeyError (key : string)
  | IndexError
  | AssertionError
  | AttributeError (attr : string)
  | ValueError (msg : string)
  | TypeError (msg : string)
  | RuntimeError (msg : string).

Global Instance Exn_eq_dec : EqDecision Exn.
Proof. solve_decision. Defined.

(** [except KeyError] catches exactly the instances of that class. *)
Definition is_KeyError (e : Exn) : bool :=
  match e with
  | KeyError _ => true
  | _ => false
  end.

Inductive Outcome (A : Type) : Type :=
  | Ok (a : A)
  | Raise (e : Exn).
Arguments Ok {A} a.
Arguments Raise {A} e.

(** ** Invocation keys and the cache index *)

(** Modelled from the spec: the class
    [qiime2.core.type.HashableInvocation] is not part of the source at hand.
    Two keys are equal (and hash alike) iff the qualified action name and the
    ordered binding sequence are structurally equal.  [arguments] is the list
    of single-entry dicts [{name: value}] the dispatcher builds, kept here as
    the list of those entries. *)
Record HashableInvocation : Type := mkInvocation {
  plugin_action : string;
  arguments : list (string * Value)
}.

Global Instance HashableInvocation_eq_dec : EqDecision HashableInvocation.
Proof. solve_decision. Defined.

Global Instance HashableInvocation_countable : Countable HashableInvocation.
Proof.
  apply (inj_countable' (λ k, (plugin_action k, arguments k))
                        (λ p, mkInvocation p.1 p.2)).
  intros []; reflexivity.
Defined.

(** The key of one element of a cached collection: the fields [item_name],
    [idx] and [total] the code reads.  Python integers are unbounded. *)
Record IndexedCollectionElement : Type := mkElem {
  item_name : string;
  idx : Z;
  total : Z
}.

Global Instance IndexedCollectionElement_eq_dec :
  EqDecision IndexedCollectionElement.
Proof. solve_decision. Defined.

(** What the index holds for one output of an invocation: one stored
    reference, or a dict from element descriptors to stored references.  The
    dict is kept as its item list, in the order its [keys()] iterate. *)
Inductive CachedOutput : Type :=
  | CachedRef (ref : Value)
  | CachedCollection (items : list (IndexedCollectionElement * Value)).

(** ** Pools and caches *)

(** Modelled from the spec: the class [Pool] of [qiime2.core.cache] is not
    part of the source at hand.  A pool saves and loads resources by handle
    ([storage]); a durable pool keeps the persisted run records of what it
    stores ([records]) and, once indexed, the mapping from invocation key to
    per-output record ([index]), the one attribute the module reads. *)
Record Pool : Type := mkPool {
  storage : gmap Value Value;
  records : list (HashableInvocation * gmap string CachedOutput);
  index : gmap HashableInvocation (gmap string CachedOutput)
}.

(** The pool pair: [cache.process_pool] is always there, [cache.named_pool]
    is [None] when no durable pool is in use. *)
Record Cache : Type := mkCache {
  process_pool : Pool;
  named_pool : option Pool
}.

(** A reference to a cache object on the heap. *)
Abbreviation CacheRef := nat.

(** ** Actions and the plugin registry *)

(** What the module reads of an action object: its name and, through
    [signature.outputs.items()], the declared outputs in declaration order,
    each with the type expression [_type.qiime_type]. *)
Record Action : Type := mkAction {
  action_id : string;
  outputs : list (string * string)
}.

(** A plugin object: [plugin_obj.actions]. *)
Record Plugin : Type := mkPlugin {
  actions : gmap string Action
}.

(** One executor of [PARALLEL_CONFIG.parallel_config.executors]: its [label]
    and [v.__class__.__name__]. *)
Record Executor : Type := mkExecutor {
  label : string;
  class_name : string
}.

(** The singleton [qiime2.sdk.parallel_config.PARALLEL_CONFIG]. *)
Record ParallelConfig : Type := mkParallelConfig {
  config_action_executor_mapping : gmap string string;
  parallel_config : option (list Executor)
}.

(** ** Results *)

(** Modelled from the spec: the class [qiime2.sdk.ResultCollection] is not
    part of the source at hand.  It is an insertion-ordered structure from
    item name to loaded value, kept as its item list. *)
Definition ResultCollection : Type := list (string * Value).

Inductive Output : Type :=
  | Single (v : Value)
  | Collection (c : ResultCollection).

(** [qiime2.sdk.Results(fields, values)]: the output names and, position by
    position, what was loaded for them. *)
Record Results : Type := mkResults {
  fields : list string;
  values : list Output
}.

(** [d[k] = v] on an insertion-ordered dict: an existing key keeps its place
    and takes the new value, a new key goes last. *)
Fixpoint dict_set {V : Type} (k : string) (v : V) (d : list (string * V))
  : list (string * V) :=
  match d with
  | [] => [(k, v)]
  | (k', v') :: d' =>
      if decide (k' = k) then (k, v) :: d' else (k', v') :: dict_set k v d'
  end.

(** ** The context object *)

(** The attributes of a [Context].  [cache] refers to a cache object that
    other contexts may hold as well; the mappings are never written by the
    module and are kept by value. *)
Inductive Context : Type := mkContext {
  action_executor_mapping : gmap string string;
  executor_name_type_mapping : option (gmap string string);
  parallel : bool;
  cache : CacheRef;
  _parent : option Context
}.

(** ** The world and the call log *)

(** A call of the module on the lock, a pool, the index or the action. *)
Inductive Event : Type :=
  | LockEnter (c : CacheRef)
  | LockExit (c : CacheRef)
  | CreateIndex (c : CacheRef)
  | MakeInvocation (key : HashableInvocation)
  | IndexContains (c : CacheRef) (key : HashableInvocation)
  | IndexGet (c : CacheRef) (key : HashableInvocation)
  | PoolLoad (c : CacheRef) (x : CachedOutput)
  | ProcessPoolSave (c : CacheRef) (ref : Value)
  | NamedPoolSave (c : CacheRef) (ref : Value)
  | Bind (action : string) (args : list Value) (kwargs : Kwargs)
  | BindParsl (action : string) (args : list Value) (kwargs : Kwargs).

(** The two ways the dispatcher hands a call to the action itself. *)
Definition is_execution (ev : Event) : bool :=
  match ev with
  | Bind _ _ _ | BindParsl _ _ _ => true
  | _ => false
  end.

(** A pool [save], the registration of a resource. *)
Definition is_registration (ev : Event) : bool :=
  match ev with
  | ProcessPoolSave _ _ | NamedPoolSave _ _ => true
  | _ => false
  end.

(** Any step of the cache probe: building the key, testing or reading the
    index, loading from the durable pool. *)
Definition is_cache_consultation (ev : Event) : bool :=
  match ev with
  | MakeInvocation _ | IndexContains _ _ | IndexGet _ _ | PoolLoad _ _ => true
  | _ => false
  end.

(** The state every method runs in: the heap of cache objects, the cache
    [get_cache] hands out, the process-wide parallel configuration, the
    plugins of the plugin manager, and the calls made so far. *)
Record World : Type := mkWorld {
  caches : CacheRef -> Cache;
  active_cache : CacheRef;
  PARALLEL_CONFIG : ParallelConfig;
  plugins : gmap string Plugin;
  calls : list Event
}.

(** ** Computations *)

Definition M (A : Type) : Type := World -> Outcome A * World.

Definition ret {A : Type} (a : A) : M A := fun w => (Ok a, w).

Definition raise {A : Type} (e : Exn) : M A := fun w => (Raise e, w).

Definition bind {A B : Type} (m : M A) (k : A -> M B) : M B :=
  fun w =>
    match m w with
    | (Ok a, w') => k a w'
    | (Raise e, w') => (Raise e, w')
    end.

Notation "'do' x <- m ; k" := (bind m (fun x => k))
  (at level 10, x name, m at level 100, k at level 200).
Notation "'exec' m ; k" := (bind m (fun _ => k))
  (at level 10, m at level 100, k at level 200).

Definition log (evs : list Event) (w : World) : World :=
  mkWorld (caches w) (active_cache w) (PARALLEL_CONFIG w) (plugins w)
          (calls w ++ evs).

Definition emit (ev : Event) : M unit := fun w => (Ok tt, log [ev] w).

Definition get_world : M World := fun w => (Ok w, w).

(** The world in which the cache object at [c] has become [x]. *)
Definition put_cache (c : CacheRef) (x : Cache) (w : World) : World :=
  mkWorld (<[c := x]> (caches w)) (active_cache w)
          (PARALLEL_CONFIG w) (plugins w) (calls w).

Definition set_cache (c : CacheRef) (x : Cache) : M unit :=
  fun w => (Ok tt, put_cache c x w).

(** An operation that cannot touch the world but may raise. *)
Definition lift {A : Type} (o : Outcome A) : M A := fun w => (o, w).

(** [with cache.lock: body]: the lock is released however the body ends. *)
Definition with_lock {A : Type} (c : CacheRef) (body : M A) : M A :=
  fun w =>
    let '(o, w') := body (log [LockEnter c] w) in
    (o, log [LockExit c] w').

(** [try: body / except KeyError: handler]. *)
Definition except_KeyError {A : Type} (body : M A) (handler : M A) : M A :=
  fun w =>
    match body w with
    | (Raise e, w') => if is_KeyError e then handler w' else (Raise e, w')
    | r => r
    end.

(** ** Collaborators *)

(** The parts of the repository the module calls but does not define.  Their
    types say what each may touch: signature handling is a function of its
    inputs, a pool method works on its own pool ([load] only reads it), and
    running an action or importing data may do anything to the world. *)
Class Collaborators : Type := {
  (** [qiime2.core.type.util.is_collection_type] *)
  is_collection_type : string -> bool;
  (** [action_obj.signature.collate_inputs], applied to the arguments *)
  collate_inputs : Action -> list Value -> Kwargs -> Outcome Kwargs;
  (** [action_obj.signature.coerce_user_input], applied to the collated
      inputs: the items of the resulting dict, in order *)
  coerce_user_input : Action -> Kwargs -> Outcome Kwargs;
  (** [Pool.create_index()] *)
  Pool_create_index : Pool -> Outcome unit * Pool;
  (** [Pool.save(ref)] *)
  Pool_save : Pool -> Value -> Outcome Value * Pool;
  (** [Pool.load(ref)] *)
  Pool_load : Pool -> CachedOutput -> Outcome Value;
  (** [qiime2.sdk.Artifact.import_data(type, view, view_type)] *)
  import_data : Value -> Value -> option Value -> M Value;
  (** [action_obj._bind(context_factory)], applied to the arguments *)
  Action_bind : Action -> M Context -> list Value -> Kwargs -> M Results;
  (** [action_obj._bind_parsl], applied to a context and the arguments *)
  Action_bind_parsl : Action -> Context -> list Value -> Kwargs -> M Results;
  (** [repr] of a string, as the [%r] conversion applies it *)
  repr : string -> string
}.

(** [str.replace(old, new)] for single characters. *)
Fixpoint str_replace (old new : ascii) (s : string) : string :=
  match s with
  | EmptyString => EmptyString
  | String c s' =>
      String (if decide (c = old) then new else c) (str_replace old new s')
  end.

(** [collection_order.sort(key=lambda x: x.idx)]: Python's sort is stable, so
    its result is the one of this insertion sort, which puts an element
    before the elements of equal key that followed it. *)
Fixpoint insert_by_idx (x : IndexedCollectionElement)
    (l : list IndexedCollectionElement) : list IndexedCollectionElement :=
  match l with
  | [] => [x]
  | y :: l' =>
      if (idx x <=? idx y)%Z then x :: y :: l' else y :: insert_by_idx x l'
  end.

Fixpoint sort_by_idx (l : list IndexedCollectionElement)
  : list IndexedCollectionElement :=
  match l with
  | [] => []
  | x :: l' => insert_by_idx x (sort_by_idx l')
  end.

(** [cached_collection[elem_info]] *)
Fixpoint collection_get (items : list (IndexedCollectionElement * Value))
    (k : IndexedCollectionElement) : option Value :=
  match items with
  | [] => None
  | (k', v) :: items' =>
      if decide (k' = k) then Some v else collection_get items' k
  end.

Section Methods.

Context {collaborators : Collaborators}.

(** *** The pool pair behind a cache reference *)

(** [cache.named_pool] *)
Definition named_pool_of (c : CacheRef) : M (option Pool) :=
  fun w => (Ok (named_pool (caches w c)), w).

(** A method or attribute of [cache.named_pool]; on [None] Python raises
    [AttributeError]. *)
Definition the_named_pool (c : CacheRef) (attr : string) : M Pool :=
  do np <- named_pool_of c;
  match np with
  | Some pool => ret pool
  | None => raise (AttributeError attr)
  end.

(** [cache.named_pool.create_index()] *)
Definition named_pool_create_index (c : CacheRef) : M unit :=
  do pool <- the_named_pool c "create_index";
  exec emit (CreateIndex c);
  let '(o, pool') := Pool_create_index pool in
  do w <- get_world;
  exec set_cache c (mkCache (process_pool (caches w c)) (Some pool'));
  lift o.

(** [cache.process_pool.save(ref)] *)
Definition process_pool_save (c : CacheRef) (ref : Value) : M Value :=
  do w <- get_world;
  exec emit (ProcessPoolSave c ref);
  let '(o, pool') := Pool_save (process_pool (caches w c)) ref in
  exec set_cache c (mkCache pool' (named_pool (caches w c)));
  lift o.

(** [cache.named_pool.save(ref)] *)
Definition named_pool_save (c : CacheRef) (ref : Value) : M Value :=
  do pool <- the_named_pool c "save";
  exec emit (NamedPoolSave c ref);
  let '(o, pool') := Pool_save pool ref in
  do w <- get_world;
  exec set_cache c (mkCache (process_pool (caches w c)) (Some pool'));
  lift o.

(** [cache.named_pool.load(x)] *)
Definition named_pool_load (c : CacheRef) (x : CachedOutput) : M Value :=
  do pool <- the_named_pool c "load";
  exec emit (PoolLoad c x);
  lift (Pool_load pool x).

(** *** [Context.__init__] *)

(** Modelled from the spec: [qiime2.core.cache.get_cache] is not part of the
    source at hand.  It acquires the pool pair in use by the process: here,
    the reference to the active cache object. *)
Definition get_cache : M CacheRef := fun w => (Ok (active_cache w), w).

(** [{v.label: v.__class__.__name__ for v in executors}]: a later executor
    with the same label replaces an earlier one. *)
Definition executor_names (executors : list Executor) : gmap string string :=
  foldl (fun m v => <[label v := class_name v]> m) ∅ executors.

Definition __init__ (parent : option Context) (parallel_arg : bool)
  : M Context :=
  match parent with
  | Some p =>
      ret (mkContext (action_executor_mapping p)
                     (executor_name_type_mapping p)
                     (parallel p)
                     (cache p)
                     (Some p))
  | None =>
      do w <- get_world;
      let aem := config_action_executor_mapping (PARALLEL_CONFIG w) in
      let entm :=
        match parallel_config (PARALLEL_CONFIG w) with
        | None => None
        | Some executors => Some (executor_names executors)
        end in
      do c <- get_cache;
      exec with_lock c
        (do np <- named_pool_of c;
         match np with
         | Some _ => named_pool_create_index c
         | None => ret tt
         end);
      ret (mkContext aem entm parallel_arg c None)
  end.

(** *** [Context._contains_proxies] *)

Definition _contains_proxies (args : list Value) (kwargs : Kwargs) : bool :=
  existsb is_proxy args || existsb (fun kv => is_proxy kv.2) kwargs.

(** *** [Context._validate_collection] *)

(** The two [assert] statements, with assertions enabled.  The list
    comprehension of the first never evaluates [collection_order[0]] on an
    empty list; the second then does, and raises [IndexError]. *)
Definition _validate_collection
    (collection_order : list IndexedCollectionElement) : M unit :=
  match collection_order with
  | [] => raise IndexError
  | first :: _ =>
      if forallb (fun elem => bool_decide (total elem = total first))
                 collection_order
      then
        if bool_decide (Z.of_nat (length collection_order) = total first)
        then ret tt
        else raise AssertionError
      else raise AssertionError
  end.

(** *** [Context._load_cache] *)

(** The inner loop, [for elem_info in collection_order]. *)
Fixpoint load_elements (self : Context)
    (cached_collection : list (IndexedCollectionElement * Value))
    (collection_order : list IndexedCollectionElement)
    (loaded_collection : ResultCollection) : M ResultCollection :=
  match collection_order with
  | [] => ret loaded_collection
  | elem_info :: rest =>
      match collection_get cached_collection elem_info with
      | None => raise (KeyError (item_name elem_info))
      | Some elem =>
          do loaded_elem <- named_pool_load (cache self) (CachedRef elem);
          load_elements self cached_collection rest
            (dict_set (item_name elem_info) loaded_elem loaded_collection)
      end
  end.

(** The body of the outer loop, for one declared output. *)
Definition load_output (self : Context)
    (cached_outputs : gmap string CachedOutput) (name qiime_type : string)
  : M Output :=
  if is_collection_type qiime_type then
    match cached_outputs !! name with
    | None => raise (KeyError name)
    | Some (CachedRef _) => raise (AttributeError "keys")
    | Some (CachedCollection cached_collection) =>
        let collection_order := cached_collection.*1 in
        exec _validate_collection collection_order;
        let collection_order := sort_by_idx collection_order in
        do loaded_collection <-
          load_elements self cached_collection collection_order [];
        ret (Collection loaded_collection)
    end
  else
    match cached_outputs !! name with
    | None => raise (KeyError name)
    | Some output =>
        do loaded <- named_pool_load (cache self) output;
        ret (Single loaded)
    end.

(** The outer loop, [for name, _type in action_obj.signature.outputs.items()],
    filling the dict [loaded_outputs]. *)
Fixpoint load_outputs (self : Context)
    (cached_outputs : gmap string CachedOutput)
    (outs : list (string * string)) (loaded_outputs : list (string * Output))
  : M (list (string * Output)) :=
  match outs with
  | [] => ret loaded_outputs
  | (name, qiime_type) :: rest =>
      do loaded <- load_output self cached_outputs name qiime_type;
      load_outputs self cached_outputs rest
        (dict_set name loaded loaded_outputs)
  end.

Definition _load_cache (self : Context) (action_obj : Action)
    (invocation : HashableInvocation) : M Results :=
  do pool <- the_named_pool (cache self) "index";
  exec emit (IndexGet (cache self) invocation);
  match index pool !! invocation with
  | None => raise (KeyError (plugin_action invocation))
  | Some cached_outputs =>
      do loaded_outputs <-
        load_outputs self cached_outputs (outputs action_obj) [];
      ret (mkResults loaded_outputs.*1 loaded_outputs.*2)
  end.

(** *** [Context.add_parent_reference] *)

Definition add_parent_reference (self : Context) (ref : Value) : M Value :=
  with_lock (cache self)
    (do new_ref <- process_pool_save (cache self) ref;
     do np <- named_pool_of (cache self);
     match np with
     | Some _ =>
         exec named_pool_save (cache self) new_ref;
         ret new_ref
     | None => ret new_ref
     end).

(** *** [Context.make_artifact] *)

Definition make_artifact (self : Context) (type view : Value)
    (view_type : option Value) : M Value :=
  do artifact <- import_data type view view_type;
  exec add_parent_reference self artifact;
  ret artifact.

(** *** [Context.get_action] *)

(** The statements after the [with] block of [deferred_action]: the call is
    handed to the action, through parsl in parallel mode and bound to a
    factory of child contexts otherwise. *)
Definition run_action (self : Context) (action_obj : Action)
    (args : list Value) (kwargs : Kwargs) : M Results :=
  if parallel self then
    exec emit (BindParsl (action_id action_obj) args kwargs);
    Action_bind_parsl action_obj self args kwargs
  else
    exec emit (Bind (action_id action_obj) args kwargs);
    Action_bind action_obj (__init__ (Some self) false) args kwargs.

(** The key of a call, as the dispatcher builds it: the inputs are collated
    and coerced, each item [(k, v)] of the resulting dict becomes the
    single-entry dict [{k: v}] of [arguments], and the key pairs the qualified
    action name with that list. *)
Definition make_invocation (plugin_action : string) (action_obj : Action)
    (args : list Value) (kwargs : Kwargs) : Outcome HashableInvocation :=
  match collate_inputs action_obj args kwargs with
  | Raise e => Raise e
  | Ok collated_inputs =>
      match coerce_user_input action_obj collated_inputs with
      | Raise e => Raise e
      | Ok callable_args =>
          let arguments := callable_args in
          Ok (mkInvocation plugin_action arguments)
      end
  end.

(** The [with self.cache.lock] block of [deferred_action]: [Some] results
    where the block returns them, [None] where control leaves the block. *)
Definition cached_results (self : Context) (plugin_action : string)
    (action_obj : Action) (args : list Value) (kwargs : Kwargs)
  : M (option Results) :=
  with_lock (cache self)
    (do np <- named_pool_of (cache self);
     match np with
     | None => ret None
     | Some _ =>
         if _contains_proxies args kwargs then ret None
         else
           do invocation <-
             lift (make_invocation plugin_action action_obj args kwargs);
           exec emit (MakeInvocation invocation);
           do pool <- the_named_pool (cache self) "index";
           exec emit (IndexContains (cache self) invocation);
           if bool_decide (is_Some (index pool !! invocation)) then
             except_KeyError
               (do results <- _load_cache self action_obj invocation;
                ret (Some results))
               (ret None)
           else ret None
     end).

Definition deferred_action (self : Context) (plugin_action : string)
    (action_obj : Action) (args : list Value) (kwargs : Kwargs) : M Results :=
  (* The function is the first arg, we ditch that *)
  let args := tail args in
  do cached <- cached_results self plugin_action action_obj args kwargs;
  match cached with
  | Some results => ret results
  | None => run_action self action_obj args kwargs
  end.

(** The callable [get_action] returns. *)
Definition Handle : Type := list Value -> Kwargs -> M Results.

(** Modelled from the spec: [Action._rewrite_wrapper_signature] is not part
    of the source at hand.  The handle it makes exposes the declared call
    signature of the action and runs the wrapper on the arguments of the
    call; as the wrapper's own comment has it (the function is the first
    argument), the wrapper receives the function ahead of those arguments.
    [_set_wrapper_properties] sets descriptive attributes only. *)
Definition _rewrite_wrapper_signature (action_obj : Action)
    (wrapper : Handle) : Handle :=
  fun args kwargs => wrapper (VCallable (action_id action_obj) :: args) kwargs.

Definition get_action (self : Context) (plugin action : string) : M Handle :=
  let plugin := str_replace "_"%char "-"%char plugin in
  let plugin_action := plugin +:+ ":" +:+ action in
  (* pm = qiime2.sdk.PluginManager(): the registry is the world's *)
  do w <- get_world;
  match plugins w !! plugin with
  | None =>
      raise (ValueError
        ("A plugin named " +:+ repr plugin +:+ " could not be found."))
  | Some plugin_obj =>
      match actions plugin_obj !! action with
      | None =>
          raise (ValueError
            ("An action named " +:+ repr action
             +:+ " was not found for plugin " +:+ repr plugin))
      | Some action_obj =>
          ret (_rewrite_wrapper_signature action_obj
                 (deferred_action self plugin_action action_obj))
      end
  end.

End Methods.

(** ** A concrete set of collaborators

    Used by the examples below: positional arguments are collated under the
    names [x], [y], [z]; coercion rejects a callable; a pool saves under an
    alias of the resource, loads what it stores and raises [KeyError]
    otherwise; indexing rebuilds the index from the run records; running an
    action asks the factory for its context and returns one fresh artifact
    per declared output; the parallel route returns proxies. *)
Module Demo.

Definition collate (act : Action) (args : list Value) (kwargs : Kwargs)
  : Outcome Kwargs :=
  Ok (zip ["x"; "y"; "z"] args ++ kwargs).

Definition coerce (act : Action) (collated : Kwargs) : Outcome Kwargs :=
  if existsb (fun kv => match kv.2 with VCallable _ => true | _ => false end)
             collated
  then Raise (TypeError "not a valid input")
  else Ok collated.

Definition create_index (p : Pool) : Outcome unit * Pool :=
  (Ok tt,
   mkPool (storage p) (records p)
          (foldl (fun m kr => <[kr.1 := kr.2]> m) ∅ (records p))).

Definition alias (ref : Value) : Value :=
  match ref with
  | VArtifact uuid => VAlias "pool" uuid
  | other => other
  end.

Definition save (p : Pool) (ref : Value) : Outcome Value * Pool :=
  (Ok (alias ref),
   mkPool (<[alias ref := ref]> (storage p)) (records p) (index p)).

Definition load (p : Pool) (x : CachedOutput) : Outcome Value :=
  match x with
  | CachedRef ref =>
      match storage p !! ref with
      | Some v => Ok v
      | None => Raise (KeyError "no such data")
      end
  | CachedCollection _ => Raise (TypeError "unhashable")
  end.

Definition import (type view : Value) (view_type : option Value) : M Value :=
  match view with
  | VStr s => ret (VArtifact s)
  | _ => raise (TypeError "no transformation")
  end.

Definition run_bind (act : Action) (factory : M Context) (args : list Value)
    (kwargs : Kwargs) : M Results :=
  do ctx <- factory;
  ret (mkResults (outputs act).*1
         (map (fun o => Single (VArtifact (action_id act +:+ "/" +:+ o.1)))
              (outputs act))).

Definition run_bind_parsl (act : Action) (ctx : Context) (args : list Value)
    (kwargs : Kwargs) : M Results :=
  ret (mkResults (outputs act).*1
         (imap (fun i _ => Single (VProxy i)) (outputs act))).

Definition collaborators : Collaborators := {|
  is_collection_type := String.prefix "Collection[";
  collate_inputs := collate;
  coerce_user_input := coerce;
  Pool_create_index := create_index;
  Pool_save := save;
  Pool_load := load;
  import_data := import;
  Action_bind := run_bind;
  Action_bind_parsl := run_bind_parsl;
  repr := fun s => "'" +:+ s +:+ "'"
|}.

(** *** Sample data *)

Definition summarize : Action :=
  mkAction "summarize" [("out", "Collection[Thing]")].

Definition filter_table : Action := mkAction "filter_table" [("table", "Table")].

Definition registry : gmap string Plugin :=
  {[ "my-plugin" :=
       mkPlugin {[ "summarize" := summarize; "filter_table" := filter_table ]} ]}.

Definition key_summarize : HashableInvocation :=
  mkInvocation "my-plugin:summarize" [("x", VInt 1)].

Definition key_filter : HashableInvocation :=
  mkInvocation "my-plugin:filter_table" [("x", VInt 1)].

(** Five elements at the positions 0 to 4, in the order 3, 0, 4, 1, 2. *)
Definition five_items : list (IndexedCollectionElement * Value) :=
  [(mkElem "d" 3 5, VAlias "pool" "d"); (mkElem "a" 0 5, VAlias "pool" "a");
   (mkElem "e" 4 5, VAlias "pool" "e"); (mkElem "b" 1 5, VAlias "pool" "b");
   (mkElem "c" 2 5, VAlias "pool" "c")].


(** Four elements that all declare a total of five. *)
Definition four_of_five : list (IndexedCollectionElement * Value) :=
  [(mkElem "d" 3 5, VAlias "pool" "d"); (mkElem "a" 0 5, VAlias "pool" "a");
   (mkElem "b" 1 5, VAlias "pool" "b"); (mkElem "c" 2 5, VAlias "pool" "c")].

Definition stored : gmap Value Value :=
  list_to_map
    [(VAlias "pool" "a", VArtifact "a"); (VAlias "pool" "b", VArtifact "b");
     (VAlias "pool" "c", VArtifact "c"); (VAlias "pool" "d", VArtifact "d");
     (VAlias "pool" "e", VArtifact "e")].

Definition indexed (st : gmap Value Value) (key : HashableInvocation)
    (record : gmap string CachedOutput) : Pool :=
  mkPool st [(key, record)] {[ key := record ]}.

(** A durable pool with a complete collection record. *)
Definition pool_complete : Pool :=
  indexed stored key_summarize {[ "out" := CachedCollection five_items ]}.

(** A durable pool whose collection record lacks an element. *)
Definition pool_short : Pool :=
  indexed stored key_summarize {[ "out" := CachedCollection four_of_five ]}.

(** A durable pool whose indexed data is gone. *)
Definition pool_stale : Pool :=
  indexed ∅ key_filter {[ "table" := CachedRef (VAlias "pool" "t") ]}.

(** A durable pool whose record for the call has no entry for the declared
    output. *)
Definition pool_partial : Pool := indexed stored key_filter ∅.

(** A durable pool that holds run records and is not indexed yet. *)
Definition pool_unindexed : Pool :=
  mkPool stored [(key_summarize, {[ "out" := CachedCollection five_items ]})] ∅.

(** A durable pool with nothing in it. *)
Definition pool_empty : Pool := mkPool ∅ [] ∅.

Definition world_with (np : option Pool) : World :=
  mkWorld (fun _ => mkCache (mkPool ∅ [] ∅) np) 0%nat
          (mkParallelConfig ∅ (Some [mkExecutor "default" "ThreadPoolExecutor"]))
          registry [].

(** The root context of [world_with np]. *)
Definition root : Context :=
  mkContext ∅ (Some {[ "default" := "ThreadPoolExecutor" ]}) false 0%nat None.

Definition handle (act : Action) (pa : string) : Handle :=
  _rewrite_wrapper_signature act
    (deferred_action (collaborators := collaborators) root pa act).

(** Two descriptors with the same item name. *)
Definition two_of_a_name : list (IndexedCollectionElement * Value) :=
  [(mkElem "a" 1 2, VAlias "pool" "b"); (mkElem "a" 0 2, VAlias "pool" "a")].

(** A durable pool whose collection record has no descriptor. *)
Definition pool_no_descriptor : Pool :=
  indexed stored key_summarize {[ "out" := CachedCollection [] ]}.

(** A durable pool that has lost the data of element [c]. *)
Definition pool_without_c : Pool :=
  indexed (delete (VAlias "pool" "c") stored) key_summarize
          {[ "out" := CachedCollection five_items ]}.

(** A pool that refuses to save under a handle it already holds. *)
Definition save_once (p : Pool) (ref : Value) : Outcome Value * Pool :=
  match storage p !! alias ref with
  | Some _ => (Raise (ValueError "already saved"), p)
  | None => save p ref
  end.

(** Collaborators whose pools save once and cannot be indexed. *)
Definition strict : Collaborators := {|
  is_collection_type := String.prefix "Collection[";
  collate_inputs := collate;
  coerce_user_input := coerce;
  Pool_create_index := fun p => (Raise (RuntimeError "unreadable pool"), p);
  Pool_save := save_once;
  Pool_load := load;
  import_data := import;
  Action_bind := run_bind;
  Action_bind_parsl := run_bind_parsl;
  repr := fun s => "'" +:+ s +:+ "'"
|}.

End Demo.

(** ** Vocabulary of the statements *)

(** Every event of a stretch of the call log satisfies [P]. *)
Definition all_events (P : Event -> bool) (evs : list Event) : Prop :=
  Forall (fun ev => P ev = true) evs.

(** Lock traffic and cache consultation: what the dispatcher may do before it
    decides. *)
Definition is_probe_step (ev : Event) : bool :=
  match ev with
  | LockEnter _ | LockExit _ => true
  | _ => is_cache_consultation ev
  end.

(** A computation that leaves the world as it is but for the events it
    appends to the call log, all of them in [P], and whose outcome does not
    depend on what the log already holds. *)
Definition only_logs {A : Type} (P : Event -> bool) (m : M A) : Prop :=
  forall w, exists evs,
    all_events P evs /\
    forall evs0, m (log evs0 w) = ((m w).1, log (evs0 ++ evs) w).

(** What the dispatcher does with a call. *)
Inductive Verdict : Type :=
  | Reuse (results : Results)
  | Execute
  | Propagate (e : Exn).

(** What the [with] block yields under a decision. *)
Definition probe_outcome (d : Verdict) : Outcome (option Results) :=
  match d with
  | Reuse results => Ok (Some results)
  | Execute => Ok None
  | Propagate e => Raise e
  end.

(** Ascending position index. *)
Definition by_idx (a b : IndexedCollectionElement) : Prop := (idx a <= idx b)%Z.

Global Instance by_idx_transitive : Transitive by_idx.
Proof. unfold by_idx. intros a b c. lia. Qed.

(** The construction of an index. *)
Definition is_index_construction (ev : Event) : bool :=
  match ev with
  | CreateIndex _ => true
  | _ => false
  end.

(** A load from the durable pool. *)
Definition is_load (ev : Event) : bool :=
  match ev with
  | PoolLoad _ _ => true
  | _ => false
  end.

(** An output agrees with a declared type: a collection for a collection
    type, a single value otherwise. *)
Definition agrees (collection_type : bool) (o : Output) : Prop :=
  match o with
  | Collection _ => collection_type = true
  | Single _ => collection_type = false
  end.

(** The completeness invariant of a collection record, on the descriptors in
    the order the record iterates them. *)
Definition complete (order : list IndexedCollectionElement) : Prop :=
  match order with
  | [] => False
  | first :: _ =>
      Forall (fun elem => total elem = total first) order /\
      Z.of_nat (length order) = total first
  end.

Section Statements.

Context {collaborators : Collaborators}.

(** The dispatcher's decision for the call of action [act], qualified name
    [pa], with the arguments [uargs] and [kwargs] in world [w]. *)
Inductive dispatch (self : Context) (pa : string) (act : Action)
    (uargs : list Value) (kwargs : Kwargs) (w : World) : Verdict -> Prop :=
  | dispatch_no_named_pool :
      named_pool (caches w (cache self)) = None ->
      dispatch self pa act uargs kwargs w Execute
  | dispatch_proxy pool :
      named_pool (caches w (cache self)) = Some pool ->
      _contains_proxies uargs kwargs = true ->
      dispatch self pa act uargs kwargs w Execute
  | dispatch_coercion_error pool e :
      named_pool (caches w (cache self)) = Some pool ->
      _contains_proxies uargs kwargs = false ->
      make_invocation pa act uargs kwargs = Raise e ->
      dispatch self pa act uargs kwargs w (Propagate e)
  | dispatch_not_indexed pool key :
      named_pool (caches w (cache self)) = Some pool ->
      _contains_proxies uargs kwargs = false ->
      make_invocation pa act uargs kwargs = Ok key ->
      index pool !! key = None ->
      dispatch self pa act uargs kwargs w Execute
  | dispatch_hit pool key results :
      named_pool (caches w (cache self)) = Some pool ->
      _contains_proxies uargs kwargs = false ->
      make_invocation pa act uargs kwargs = Ok key ->
      is_Some (index pool !! key) ->
      (_load_cache self act key w).1 = Ok results ->
      dispatch self pa act uargs kwargs w (Reuse results)
  | dispatch_missing_key pool key k :
      named_pool (caches w (cache self)) = Some pool ->
      _contains_proxies uargs kwargs = false ->
      make_invocation pa act uargs kwargs = Ok key ->
      is_Some (index pool !! key) ->
      (_load_cache self act key w).1 = Raise (KeyError k) ->
      dispatch self pa act uargs kwargs w Execute
  | dispatch_reconstruction_error pool key e :
      named_pool (caches w (cache self)) = Some pool ->
      _contains_proxies uargs kwargs = false ->
      make_invocation pa act uargs kwargs = Ok key ->
      is_Some (index pool !! key) ->
      (_load_cache self act key w).1 = Raise e ->
      is_KeyError e = false ->
      dispatch self pa act uargs kwargs w (Propagate e).

(** What a call returns under a decision, [evs] being what the probe logged. *)
Definition carry_out (self : Context) (act : Action) (uargs : list Value)
    (kwargs : Kwargs) (w : World) (evs : list Event) (d : Verdict)
  : Outcome Results * World :=
  match d with
  | Reuse results => (Ok results, log evs w)
  | Execute => run_action self act uargs kwargs (log evs w)
  | Propagate e => (Raise e, log evs w)
  end.

(** The contexts of the tree grown from [root] by the constructor. *)
Inductive in_tree (root : Context) : Context -> Prop :=
  | in_tree_root : in_tree root root
  | in_tree_child parent child parallel_arg w w' :
      in_tree root parent ->
      __init__ (Some parent) parallel_arg w = (Ok child, w') ->
      in_tree root child.

(** *** The call log *)

Lemma log_nil (w : World) : log [] w = w.
Proof. destruct w; unfold log; simpl. by rewrite app_nil_r. Qed.

Lemma log_log (a b : list Event) (w : World) :
  log b (log a w) = log (a ++ b) w.
Proof. unfold log; simpl. by rewrite app_assoc. Qed.

Lemma all_events_app P (a b : list Event) :
  all_events P a -> all_events P b -> all_events P (a ++ b).
Proof. unfold all_events. intros. by apply Forall_app. Qed.

Lemma all_events_weaken (P Q : Event -> bool) (evs : list Event) :
  (forall ev, P ev = true -> Q ev = true) ->
  all_events P evs -> all_events Q evs.
Proof. unfold all_events. intros HPQ HP. eapply Forall_impl; eauto. Qed.

Lemma only_logs_run {A} P (m : M A) (w : World) :
  only_logs P m ->
  exists evs, all_events P evs /\ m w = ((m w).1, log evs w).
Proof.
  intros Hm. destruct (Hm w) as (evs & HP & Hrun).
  exists evs. split; [done|].
  specialize (Hrun []). by rewrite log_nil in Hrun.
Qed.

Lemma only_logs_outcome {A} P (m : M A) (evs0 : list Event) (w : World) :
  only_logs P m -> (m (log evs0 w)).1 = (m w).1.
Proof.
  intros Hm. destruct (Hm w) as (evs & _ & Hrun). by rewrite Hrun.
Qed.

Lemma only_logs_weaken {A} (P Q : Event -> bool) (m : M A) :
  (forall ev, P ev = true -> Q ev = true) ->
  only_logs P m -> only_logs Q m.
Proof.
  intros HPQ Hm w. destruct (Hm w) as (evs & HP & Hrun).
  exists evs. split; [by eapply all_events_weaken|done].
Qed.

Lemma only_logs_ret {A} P (a : A) : only_logs P (ret a).
Proof.
  intros w. exists []. split; [constructor|].
  intros evs0. unfold ret; simpl. by rewrite app_nil_r.
Qed.

Lemma only_logs_raise {A} P (e : Exn) : only_logs P (@raise A e).
Proof.
  intros w. exists []. split; [constructor|].
  intros evs0. unfold raise; simpl. by rewrite app_nil_r.
Qed.

Lemma only_logs_lift {A} P (o : Outcome A) : only_logs P (lift o).
Proof.
  intros w. exists []. split; [constructor|].
  intros evs0. unfold lift; simpl. by rewrite app_nil_r.
Qed.

Lemma only_logs_emit (P : Event -> bool) (ev : Event) :
  P ev = true -> only_logs P (emit ev).
Proof.
  intros HP w. exists [ev]. split; [by repeat constructor|].
  intros evs0. unfold emit; simpl. by rewrite log_log.
Qed.

Lemma only_logs_bind {A B} P (m : M A) (k : A -> M B) :
  only_logs P m -> (forall a, only_logs P (k a)) -> only_logs P (bind m k).
Proof.
  intros Hm Hk w. destruct (Hm w) as (evs & HP & Hrun).
  pose proof (Hrun []) as Hw. rewrite log_nil in Hw. simpl in Hw.
  unfold bind. destruct (m w).1 as [a|e] eqn:Ho.
  - destruct (Hk a w) as (evs' & HP' & Hrun').
    exists (evs ++ evs'). split; [by apply all_events_app|].
    intros evs0. rewrite Hrun, Hw, !Hrun'. simpl.
    by rewrite !app_assoc.
  - exists evs. split; [done|].
    intros evs0. by rewrite Hrun, Hw.
Qed.

Lemma only_logs_named_pool_of P (c : CacheRef) : only_logs P (named_pool_of c).
Proof.
  intros w. exists []. split; [constructor|].
  intros evs0. unfold named_pool_of; simpl. by rewrite app_nil_r.
Qed.

Lemma only_logs_with_lock {A} (P : Event -> bool) (c : CacheRef) (m : M A) :
  P (LockEnter c) = true -> P (LockExit c) = true ->
  only_logs P m -> only_logs P (with_lock c m).
Proof.
  intros HE HX Hm w. destruct (Hm w) as (evs & HP & Hrun).
  exists ([LockEnter c] ++ evs ++ [LockExit c]). split.
  - apply all_events_app; [by repeat constructor|].
    apply all_events_app; [done|by repeat constructor].
  - intros evs0. unfold with_lock.
    pose proof (Hrun [LockEnter c]) as Hw.
    rewrite !log_log, Hrun, Hw. simpl.
    by rewrite log_log, <- !app_assoc.
Qed.

Lemma only_logs_except_KeyError {A} P (m handler : M A) :
  only_logs P m -> only_logs P handler ->
  only_logs P (except_KeyError m handler).
Proof.
  intros Hm Hh w. destruct (Hm w) as (evs & HP & Hrun).
  pose proof (Hrun []) as Hw. rewrite log_nil in Hw. simpl in Hw.
  unfold except_KeyError. destruct (m w).1 as [a|e] eqn:Ho.
  - exists evs. split; [done|]. intros evs0. rewrite Hrun, Hw. reflexivity.
  - destruct (is_KeyError e) eqn:HK.
    + destruct (Hh w) as (evs' & HP' & Hrun').
      exists (evs ++ evs'). split; [by apply all_events_app|].
      intros evs0. rewrite Hrun, Hw, HK, !Hrun'. simpl. by rewrite !app_assoc.
    + exists evs. split; [done|]. intros evs0. by rewrite Hrun, Hw, HK.
Qed.

(** *** Reconstruction only reads *)

Lemma is_cache_consultation_probe_step (ev : Event) :
  is_cache_consultation ev = true -> is_probe_step ev = true.
Proof. by destruct ev. Qed.

Lemma only_logs_the_named_pool P (c : CacheRef) (attr : string) :
  only_logs P (the_named_pool c attr).
Proof.
  apply only_logs_bind; [apply only_logs_named_pool_of|].
  intros [pool|]; [apply only_logs_ret|apply only_logs_raise].
Qed.

Lemma only_logs_named_pool_load (c : CacheRef) (x : CachedOutput) :
  only_logs is_cache_consultation (named_pool_load c x).
Proof.
  apply only_logs_bind; [apply only_logs_the_named_pool|]. intros pool.
  apply only_logs_bind; [by apply only_logs_emit|]. intros _.
  apply only_logs_lift.
Qed.

Lemma only_logs_validate_collection P order :
  only_logs P (_validate_collection order).
Proof.
  unfold _validate_collection. destruct order as [|first rest].
  - apply only_logs_raise.
  - repeat case_match;
      first [apply only_logs_ret | apply only_logs_raise].
Qed.

Lemma only_logs_load_elements self cached_collection order loaded :
  only_logs is_cache_consultation
    (load_elements self cached_collection order loaded).
Proof.
  revert loaded. induction order as [|elem_info rest IH]; intros loaded; simpl.
  - apply only_logs_ret.
  - destruct (collection_get cached_collection elem_info) as [elem|].
    + apply only_logs_bind; [apply only_logs_named_pool_load|].
      intros loaded_elem. apply IH.
    + apply only_logs_raise.
Qed.

Lemma only_logs_load_output self cached_outputs name qiime_type :
  only_logs is_cache_consultation
    (load_output self cached_outputs name qiime_type).
Proof.
  unfold load_output. destruct (is_collection_type qiime_type).
  - destruct (cached_outputs !! name) as [[ref|items]|];
      try apply only_logs_raise.
    apply only_logs_bind; [apply only_logs_validate_collection|]. intros _.
    apply only_logs_bind; [apply only_logs_load_elements|]. intros c.
    apply only_logs_ret.
  - destruct (cached_outputs !! name) as [output|];
      try apply only_logs_raise.
    apply only_logs_bind; [apply only_logs_named_pool_load|]. intros v.
    apply only_logs_ret.
Qed.

Lemma only_logs_load_outputs self cached_outputs outs loaded :
  only_logs is_cache_consultation
    (load_outputs self cached_outputs outs loaded).
Proof.
  revert loaded. induction outs as [|[name ty] rest IH]; intros loaded; simpl.
  - apply only_logs_ret.
  - apply only_logs_bind; [apply only_logs_load_output|].
    intros o. apply IH.
Qed.

Lemma only_logs_load_cache self action_obj invocation :
  only_logs is_cache_consultation (_load_cache self action_obj invocation).
Proof.
  unfold _load_cache.
  apply only_logs_bind; [apply only_logs_the_named_pool|]. intros pool.
  apply only_logs_bind; [by apply only_logs_emit|]. intros _.
  destruct (index pool !! invocation) as [cached_outputs|].
  - apply only_logs_bind; [apply only_logs_load_outputs|]. intros l.
    apply only_logs_ret.
  - apply only_logs_raise.
Qed.

(** *** The probe *)

Lemma only_logs_cached_results self pa act uargs kwargs :
  only_logs is_probe_step (cached_results self pa act uargs kwargs).
Proof.
  unfold cached_results.
  apply only_logs_with_lock; [done..|].
  apply only_logs_bind; [apply only_logs_named_pool_of|].
  intros [pool|]; [|apply only_logs_ret].
  destruct (_contains_proxies uargs kwargs); [apply only_logs_ret|].
  apply only_logs_bind; [apply only_logs_lift|]. intros key.
  apply only_logs_bind; [by apply only_logs_emit|]. intros _.
  apply only_logs_bind; [apply only_logs_the_named_pool|]. intros pool'.
  apply only_logs_bind; [by apply only_logs_emit|]. intros _.
  case_bool_decide; [|apply only_logs_ret].
  apply only_logs_except_KeyError; [|apply only_logs_ret].
  apply only_logs_bind; [|intros r; apply only_logs_ret].
  eapply only_logs_weaken; [|apply only_logs_load_cache].
  apply is_cache_consultation_probe_step.
Qed.

Lemma cached_results_outcome self pa act uargs kwargs w :
  exists d,
    dispatch self pa act uargs kwargs w d /\
    (cached_results self pa act uargs kwargs w).1 = probe_outcome d.
Proof.
  unfold cached_results, with_lock, bind, named_pool_of, the_named_pool,
    bind, named_pool_of, lift, emit, ret. simpl.
  destruct (named_pool (caches w (cache self))) as [pool|] eqn:Hpool; simpl.
  2:{ exists Execute. split; [by constructor|done]. }
  destruct (_contains_proxies uargs kwargs) eqn:Hprox; simpl.
  { exists Execute. split; [by econstructor 2|done]. }
  destruct (make_invocation pa act uargs kwargs) as [key|e] eqn:Hkey; simpl.
  2:{ exists (Propagate e). split; [by econstructor 3|done]. }
  rewrite Hpool. simpl.
  case_bool_decide as Hin; simpl.
  2:{ exists Execute. split; [|done]. eapply dispatch_not_indexed; eauto.
      by apply eq_None_not_Some. }
  rewrite !log_log. unfold except_KeyError.
  pose proof (only_logs_load_cache self act key) as Hlc.
  destruct (Hlc w) as (evs & _ & Hrun). rewrite Hrun. simpl.
  destruct (_load_cache self act key w).1 as [r|e] eqn:Hr; simpl.
  - exists (Reuse r). split; [|done]. by eapply dispatch_hit.
  - destruct e; simpl;
      try (eexists (Propagate _); split;
           [by eapply dispatch_reconstruction_error|done]).
    exists Execute. split; [|done]. by eapply dispatch_missing_key.
Qed.

Lemma cached_results_run self pa act uargs kwargs w :
  exists d evs,
    dispatch self pa act uargs kwargs w d /\
    all_events is_probe_step evs /\
    cached_results self pa act uargs kwargs w = (probe_outcome d, log evs w).
Proof.
  destruct (cached_results_outcome self pa act uargs kwargs w) as (d & Hd & Ho).
  destruct (only_logs_run is_probe_step _ w
              (only_logs_cached_results self pa act uargs kwargs))
    as (evs & Hevs & Hrun).
  exists d, evs. by rewrite Hrun, Ho.
Qed.

Lemma deferred_action_run self pa act args kwargs w :
  exists d evs,
    dispatch self pa act (tail args) kwargs w d /\
    all_events is_probe_step evs /\
    deferred_action self pa act args kwargs w
    = carry_out self act (tail args) kwargs w evs d.
Proof.
  destruct (cached_results_run self pa act (tail args) kwargs w)
    as (d & evs & Hd & Hevs & Hrun).
  exists d, evs. repeat split; [done..|].
  unfold deferred_action, bind. rewrite Hrun.
  by destruct d.
Qed.

(** The decision is a function of the call and the world. *)
Lemma dispatch_functional self pa act uargs kwargs w d d' :
  dispatch self pa act uargs kwargs w d ->
  dispatch self pa act uargs kwargs w d' ->
  d = d'.
Proof.
  intros Hd Hd'.
  destruct Hd; destruct Hd';
    repeat match goal with
           | Hs : is_Some ?x, Hn : ?x = None |- _ =>
               rewrite Hn in Hs; by destruct Hs
           | H1 : ?x = _, H2 : ?x = _ |- _ =>
               rewrite H1 in H2; simplify_eq
           end;
    done.
Qed.

Lemma dispatch_log self pa act uargs kwargs w evs d :
  dispatch self pa act uargs kwargs w d ->
  dispatch self pa act uargs kwargs (log evs w) d.
Proof.
  pose proof (fun key =>
    only_logs_outcome _ _ evs w (only_logs_load_cache self act key)) as Hlc.
  intros Hd. destruct Hd.
  - by constructor.
  - by econstructor 2.
  - by econstructor 3.
  - by eapply dispatch_not_indexed.
  - eapply dispatch_hit; eauto. by rewrite Hlc.
  - eapply dispatch_missing_key; eauto. by rewrite Hlc.
  - eapply dispatch_reconstruction_error; eauto. by rewrite Hlc.
Qed.

Lemma is_probe_step_quiet (evs : list Event) :
  all_events is_probe_step evs ->
  all_events (fun ev => negb (is_execution ev) && negb (is_registration ev))
             evs.
Proof. apply all_events_weaken. by intros []. Qed.

(** *** The handle *)

Lemma get_action_handle self plugin action w h w' :
  get_action self plugin action w = (Ok h, w') ->
  w' = w /\
  exists plugin_obj action_obj,
    plugins w !! str_replace "_" "-" plugin = Some plugin_obj /\
    actions plugin_obj !! action = Some action_obj /\
    h = _rewrite_wrapper_signature action_obj
          (deferred_action self
             (str_replace "_" "-" plugin +:+ ":" +:+ action) action_obj).
Proof.
  unfold get_action, bind, get_world, raise, ret.
  destruct (plugins w !! str_replace "_" "-" plugin) as [plugin_obj|] eqn:Hp;
    [|done].
  destruct (actions plugin_obj !! action) as [action_obj|] eqn:Ha; [|done].
  intros [= <- <-]. split; [done|]. by exists plugin_obj, action_obj.
Qed.

Lemma _contains_proxies_true (args : list Value) (kwargs : Kwargs) :
  _contains_proxies args kwargs = true <->
  (exists v, v ∈ args /\ is_proxy v = true) \/
  (exists k v, (k, v) ∈ kwargs /\ is_proxy v = true).
Proof.
  unfold _contains_proxies. rewrite orb_true_iff, !existsb_exists.
  split; intros [Hx|Hx]; [left|right|left|right].
  - destruct Hx as (v & Hin & Hp). exists v. by rewrite list_elem_of_In.
  - destruct Hx as ([k v] & Hin & Hp). exists k, v.
    by rewrite list_elem_of_In.
  - destruct Hx as (v & Hin & Hp). exists v. by rewrite <- list_elem_of_In.
  - destruct Hx as (k & v & Hin & Hp). exists (k, v).
    by rewrite <- list_elem_of_In.
Qed.

(** *** The dispatcher *)

(** What handing a call to the action comes to: one call of [_bind_parsl]
    with the context itself in parallel mode, one call of [_bind] with the
    factory of child contexts otherwise, logged as such. *)
Lemma run_action_run self act uargs kwargs w :
  run_action self act uargs kwargs w
  = if parallel self
    then Action_bind_parsl act self uargs kwargs
           (log [BindParsl (action_id act) uargs kwargs] w)
    else Action_bind act (__init__ (Some self) false) uargs kwargs
           (log [Bind (action_id act) uargs kwargs] w).
Proof. unfold run_action, bind, emit. by destruct (parallel self). Qed.

(** C1, as amended.  A call through the handle returned by [get_action] ends
    in exactly one of three ways, decided by [dispatch]: the reconstructed
    cached results are returned ([Reuse]: a durable pool is active, no
    argument is a proxy, the key is in the index and reconstruction succeeds);
    the action is run, once ([Execute]: no durable pool, or a proxy argument,
    or the key is not in the index, or reconstruction raised a missing-key
    error), by one call of [_bind_parsl] on the context in parallel mode and
    by one call of [_bind] on the factory of child contexts otherwise, whose
    outcome is the outcome of the call; or an error of coercion or of
    reconstruction propagates ([Propagate]) and the action is not run.  Up to
    the decision, the call only appends lock and probe events to the log: it
    runs nothing and registers nothing.  A call that was served from the
    cache is served from it again when repeated. *)
Theorem call_reuses_executes_or_propagates
    self plugin action w0 h w0' :
  get_action self plugin action w0 = (Ok h, w0') ->
  exists plugin_obj act,
    plugins w0 !! str_replace "_" "-" plugin = Some plugin_obj /\
    actions plugin_obj !! action = Some act /\
    forall uargs kwargs w,
    exists d evs,
      let pa := str_replace "_" "-" plugin +:+ ":" +:+ action in
      dispatch self pa act uargs kwargs w d /\
      (forall d', dispatch self pa act uargs kwargs w d' -> d' = d) /\
      all_events
        (fun ev => negb (is_execution ev) && negb (is_registration ev)) evs /\
      h uargs kwargs w
      = match d with
        | Reuse results => (Ok results, log evs w)
        | Execute =>
            if parallel self
            then Action_bind_parsl act self uargs kwargs
                   (log (evs ++ [BindParsl (action_id act) uargs kwargs]) w)
            else Action_bind act (__init__ (Some self) false) uargs kwargs
                   (log (evs ++ [Bind (action_id act) uargs kwargs]) w)
        | Propagate e => (Raise e, log evs w)
        end /\
      (forall results, d = Reuse results ->
         exists evs',
           all_events
             (fun ev => negb (is_execution ev) && negb (is_registration ev))
             evs' /\
           h uargs kwargs (log evs w) = (Ok results, log evs' (log evs w))).
Proof.
  intros Hget.
  destruct (get_action_handle _ _ _ _ _ _ Hget)
    as (_ & plugin_obj & act & Hplugin & Haction & ->).
  exists plugin_obj, act. split; [done|]. split; [done|].
  intros uargs kwargs w.
  set (pa := str_replace "_" "-" plugin +:+ ":" +:+ action).
  unfold _rewrite_wrapper_signature.
  destruct (deferred_action_run self pa act
              (VCallable (action_id act) :: uargs) kwargs w)
    as (d & evs & Hd & Hevs & Hrun).
  simpl in Hd, Hrun.
  exists d, evs. simpl. repeat split.
  - done.
  - intros d' Hd'. by eapply dispatch_functional.
  - by apply is_probe_step_quiet.
  - rewrite Hrun. destruct d; simpl; [done| |done].
    rewrite run_action_run. by rewrite !log_log.
  - intros results ->.
    destruct (deferred_action_run self pa act
                (VCallable (action_id act) :: uargs) kwargs (log evs w))
      as (d2 & evs' & Hd2 & Hevs' & Hrun2).
    simpl in Hd2, Hrun2.
    assert (d2 = Reuse results) as ->.
    { eapply dispatch_functional; [exact Hd2|]. by apply dispatch_log. }
    exists evs'. split; [by apply is_probe_step_quiet|done].
Qed.

(** C2.  When a positional or keyword argument of a call through the handle
    is a proxy, the dispatcher takes and releases the lock and hands the call
    to the action, by one call of [_bind_parsl] on the context in parallel
    mode and of [_bind] on the factory of child contexts otherwise: no key is
    built, the index is neither tested nor read and nothing is loaded,
    whatever the index holds. *)
Theorem proxy_argument_skips_the_cache
    self plugin action w0 h w0' uargs kwargs w :
  get_action self plugin action w0 = (Ok h, w0') ->
  (exists v, v ∈ uargs /\ is_proxy v = true) \/
  (exists k v, (k, v) ∈ kwargs /\ is_proxy v = true) ->
  exists plugin_obj act evs,
    plugins w0 !! str_replace "_" "-" plugin = Some plugin_obj /\
    actions plugin_obj !! action = Some act /\
    evs = [LockEnter (cache self); LockExit (cache self)] /\
    all_events (fun ev => negb (is_cache_consultation ev)) evs /\
    h uargs kwargs w
    = if parallel self
      then Action_bind_parsl act self uargs kwargs
             (log (evs ++ [BindParsl (action_id act) uargs kwargs]) w)
      else Action_bind act (__init__ (Some self) false) uargs kwargs
             (log (evs ++ [Bind (action_id act) uargs kwargs]) w).
Proof.
  intros Hget Hproxy. apply _contains_proxies_true in Hproxy.
  destruct (get_action_handle _ _ _ _ _ _ Hget)
    as (_ & plugin_obj & act & Hplugin & Haction & ->).
  exists plugin_obj, act, [LockEnter (cache self); LockExit (cache self)].
  split; [done|]. split; [done|].
  split; [done|]. split; [by repeat constructor|].
  unfold _rewrite_wrapper_signature, deferred_action, cached_results,
    with_lock, bind, named_pool_of, ret. simpl.
  rewrite Hproxy.
  destruct (named_pool (caches w (cache self)));
    by rewrite run_action_run, !log_log.
Qed.

(** C3, as amended.  With a durable pool and no proxy argument: when the key
    is in the index and reconstruction raises, a missing-key error (from
    loading an element whose storage is gone, or from a record that lacks a
    declared output) makes the call a miss and the action is run, while any
    other error propagates unchanged; an error of coercion propagates
    unchanged; and when the key is not in the index the action is run.
    Running the action is one call of [_bind_parsl] on the context in
    parallel mode and of [_bind] on the factory of child contexts otherwise,
    and the outcome of the call, errors included, is the outcome of that
    call. *)
Theorem missing_key_is_a_miss_other_errors_propagate
    self pa act args kwargs w pool :
  named_pool (caches w (cache self)) = Some pool ->
  _contains_proxies (tail args) kwargs = false ->
  let executed evs :=
    if parallel self
    then Action_bind_parsl act self (tail args) kwargs
           (log (evs ++ [BindParsl (action_id act) (tail args) kwargs]) w)
    else Action_bind act (__init__ (Some self) false) (tail args) kwargs
           (log (evs ++ [Bind (action_id act) (tail args) kwargs]) w) in
  (forall key e,
     make_invocation pa act (tail args) kwargs = Ok key ->
     is_Some (index pool !! key) ->
     (_load_cache self act key w).1 = Raise e ->
     exists evs,
       all_events is_probe_step evs /\
       deferred_action self pa act args kwargs w
       = if is_KeyError e then executed evs else (Raise e, log evs w)) /\
  (forall e,
     make_invocation pa act (tail args) kwargs = Raise e ->
     exists evs,
       all_events is_probe_step evs /\
       deferred_action self pa act args kwargs w = (Raise e, log evs w)) /\
  (forall key,
     make_invocation pa act (tail args) kwargs = Ok key ->
     index pool !! key = None ->
     exists evs,
       all_events is_probe_step evs /\
       deferred_action self pa act args kwargs w = executed evs).
Proof.
  intros Hpool Hprox executed.
  assert (forall evs,
            run_action self act (tail args) kwargs (log evs w) = executed evs)
    as Hexec.
  { intros evs. unfold executed. by rewrite run_action_run, !log_log. }
  destruct (deferred_action_run self pa act args kwargs w)
    as (d & evs & Hd & Hevs & Hrun).
  repeat split.
  - intros key e Hkey Hin Hload. exists evs. split; [done|].
    rewrite Hrun. destruct (is_KeyError e) eqn:HK.
    + destruct e; try done.
      rewrite (dispatch_functional _ _ _ _ _ _ _ _ Hd
                 (dispatch_missing_key _ _ _ _ _ _ _ _ _
                    Hpool Hprox Hkey Hin Hload)).
      apply Hexec.
    + by rewrite (dispatch_functional _ _ _ _ _ _ _ _ Hd
                    (dispatch_reconstruction_error _ _ _ _ _ _ _ _ _
                       Hpool Hprox Hkey Hin Hload HK)).
  - intros e Hkey. exists evs. split; [done|].
    by rewrite Hrun, (dispatch_functional _ _ _ _ _ _ _ _ Hd
                        (dispatch_coercion_error _ _ _ _ _ _ _ _
                           Hpool Hprox Hkey)).
  - intros key Hkey Hnone. exists evs. split; [done|].
    rewrite Hrun, (dispatch_functional _ _ _ _ _ _ _ _ Hd
                     (dispatch_not_indexed _ _ _ _ _ _ _ _
                        Hpool Hprox Hkey Hnone)).
    apply Hexec.
Qed.

(** *** Construction *)

Lemma log_put_cache (evs : list Event) (c : CacheRef) (x : Cache) (w : World) :
  put_cache c x (log evs w) = log evs (put_cache c x w).
Proof. done. Qed.

(** C6.  A context constructed with a parent takes the parent's cache
    reference, parallel flag and both mappings as they are and records the
    parent; the construction touches nothing and does not depend on the
    [parallel] argument.  Hence every context of the tree grown from a root
    holds the root's cache reference, so the same pool pair, and the root's
    parallel flag and mappings. *)
Theorem child_context_inherits :
  (forall p parallel_arg w,
     exists child,
       __init__ (Some p) parallel_arg w = (Ok child, w) /\
       cache child = cache p /\
       parallel child = parallel p /\
       action_executor_mapping child = action_executor_mapping p /\
       executor_name_type_mapping child = executor_name_type_mapping p /\
       _parent child = Some p) /\
  (forall p b b' w,
     __init__ (Some p) b w = __init__ (Some p) b' w) /\
  (forall root ctx,
     in_tree root ctx ->
     cache ctx = cache root /\
     parallel ctx = parallel root /\
     action_executor_mapping ctx = action_executor_mapping root /\
     executor_name_type_mapping ctx = executor_name_type_mapping root /\
     forall w, caches w (cache ctx) = caches w (cache root)).
Proof.
  split; [|split].
  - intros p b w. eexists. by repeat split.
  - done.
  - intros root ctx Htree.
    induction Htree as [|parent child b w w' _ IH Hnew]; [done|].
    injection Hnew as <- _. simpl.
    destruct IH as (Hcache & Hpar & Haem & Hentm & Hpair).
    by rewrite Hcache.
Qed.

Lemma root_construction_indexes parallel_arg w np o np' :
  named_pool (caches w (active_cache w)) = Some np ->
  Pool_create_index np = (o, np') ->
  let c := active_cache w in
  exists ctx,
    cache ctx = c /\ parallel ctx = parallel_arg /\ _parent ctx = None /\
    __init__ None parallel_arg w
    = (match o with Ok _ => Ok ctx | Raise e => Raise e end,
       log [LockEnter c; CreateIndex c; LockExit c]
         (put_cache c (mkCache (process_pool (caches w c)) (Some np')) w)).
Proof.
  intros Hnp Hci. simpl. eexists. repeat split; cycle 3.
  - unfold __init__, bind, get_world, get_cache, with_lock, named_pool_of,
      named_pool_create_index, the_named_pool, bind, named_pool_of, emit,
      set_cache, lift, get_world, ret. simpl.
    repeat first [rewrite Hnp | rewrite Hci | progress simpl].
    rewrite ?log_put_cache, ?log_log. simpl.
    destruct o; reflexivity.
  - done.
  - done.
  - done.
Qed.

Lemma root_construction_without_pool parallel_arg w :
  named_pool (caches w (active_cache w)) = None ->
  let c := active_cache w in
  exists ctx,
    cache ctx = c /\ parallel ctx = parallel_arg /\ _parent ctx = None /\
    __init__ None parallel_arg w
    = (Ok ctx, log [LockEnter c; LockExit c] w).
Proof.
  intros Hnp. simpl. eexists. repeat split; cycle 3.
  - unfold __init__, bind, get_world, get_cache, with_lock, named_pool_of,
      ret. simpl.
    rewrite Hnp. simpl. rewrite !log_log. reflexivity.
  - done.
  - done.
  - done.
Qed.

Lemma is_probe_step_no_index (evs : list Event) :
  all_events is_probe_step evs ->
  all_events (fun ev => negb (is_index_construction ev)) evs.
Proof. apply all_events_weaken. by intros []. Qed.

Lemma add_parent_reference_run self ref w new_ref pp' :
  let c := cache self in
  Pool_save (process_pool (caches w c)) ref = (Ok new_ref, pp') ->
  add_parent_reference self ref w
  = match named_pool (caches w c) with
    | None =>
        (Ok new_ref,
         log [LockEnter c; ProcessPoolSave c ref; LockExit c]
           (put_cache c (mkCache pp' None) w))
    | Some np =>
        (match (Pool_save np new_ref).1 with
         | Ok _ => Ok new_ref
         | Raise e => Raise e
         end,
         log [LockEnter c; ProcessPoolSave c ref; NamedPoolSave c new_ref;
              LockExit c]
           (put_cache c (mkCache pp' (Some (Pool_save np new_ref).2))
              (put_cache c (mkCache pp' (Some np)) w)))
    end.
Proof.
  intros c Hsave.
  unfold add_parent_reference, with_lock, bind, process_pool_save,
    named_pool_save, the_named_pool, bind, named_pool_of, get_world, emit,
    set_cache, lift, ret. simpl. fold c.
  rewrite Hsave. simpl. rewrite fn_lookup_insert. simpl.
  destruct (named_pool (caches w c)) as [np|]; simpl.
  - destruct (Pool_save np new_ref) as [o np'] eqn:Hnamed. simpl.
    repeat first [rewrite Hnamed | rewrite fn_lookup_insert | progress simpl].
    rewrite ?log_put_cache, ?log_log.
    destruct o; simpl; by rewrite log_log.
  - by rewrite ?log_put_cache, ?log_log.
Qed.

Lemma add_parent_reference_calls self ref w :
  exists evs,
    calls (add_parent_reference self ref w).2 = calls w ++ evs /\
    all_events (fun ev => negb (is_index_construction ev)) evs.
Proof.
  destruct (Pool_save (process_pool (caches w (cache self))) ref)
    as [[new_ref|e] pp'] eqn:Hsave.
  - rewrite (add_parent_reference_run self ref w new_ref pp' Hsave).
    destruct (named_pool (caches w (cache self))) as [np|]; simpl;
      eexists; (split; [reflexivity|]); by repeat constructor.
  - unfold add_parent_reference, with_lock, bind, process_pool_save, bind,
      get_world, emit, set_cache, lift. simpl. rewrite Hsave. simpl.
    rewrite <- !app_assoc. eexists. split; [reflexivity|].
    by repeat constructor.
Qed.

(** C7.  Constructing a root context takes the lock of the active cache,
    calls [create_index] on its durable pool if there is one (and only then),
    and releases the lock; constructing a child touches nothing, and neither
    registering a reference nor dispatching a call builds an index.  When
    [create_index] is idempotent, a second root construction leaves every
    cache object, the index with it, as the first left it. *)
Theorem index_is_built_at_root_construction_only :
  (forall parallel_arg w np o np',
     named_pool (caches w (active_cache w)) = Some np ->
     Pool_create_index np = (o, np') ->
     let c := active_cache w in
     (__init__ None parallel_arg w).2
     = log [LockEnter c; CreateIndex c; LockExit c]
         (put_cache c (mkCache (process_pool (caches w c)) (Some np')) w)) /\
  (forall parallel_arg w,
     named_pool (caches w (active_cache w)) = None ->
     let c := active_cache w in
     (__init__ None parallel_arg w).2 = log [LockEnter c; LockExit c] w) /\
  (forall p parallel_arg w, (__init__ (Some p) parallel_arg w).2 = w) /\
  (forall self ref w,
     exists evs,
       calls (add_parent_reference self ref w).2 = calls w ++ evs /\
       all_events (fun ev => negb (is_index_construction ev)) evs) /\
  (forall self pa act args kwargs w,
     exists d evs,
       all_events (fun ev => negb (is_index_construction ev)) evs /\
       deferred_action self pa act args kwargs w
       = carry_out self act (tail args) kwargs w evs d) /\
  ((forall p p',
      Pool_create_index p = (Ok tt, p') ->
      Pool_create_index p' = (Ok tt, p')) ->
   forall b b' w ctx w1,
     __init__ None b w = (Ok ctx, w1) ->
     exists ctx2 w2,
       __init__ None b' w1 = (Ok ctx2, w2) /\
       cache ctx2 = cache ctx /\
       forall r, caches w2 r = caches w1 r).
Proof.
  split; [|split; [|split; [|split; [|split]]]].
  - intros b w np o np' Hnp Hci.
    destruct (root_construction_indexes b w np o np' Hnp Hci)
      as (ctx & _ & _ & _ & ->). done.
  - intros b w Hnp.
    destruct (root_construction_without_pool b w Hnp)
      as (ctx & _ & _ & _ & ->). done.
  - done.
  - apply add_parent_reference_calls.
  - intros self pa act args kwargs w.
    destruct (deferred_action_run self pa act args kwargs w)
      as (d & evs & _ & Hevs & Hrun).
    exists d, evs. split; [by apply is_probe_step_no_index|done].
  - intros Hidem b b' w ctx w1 Hnew.
    destruct (named_pool (caches w (active_cache w))) as [np|] eqn:Hnp.
    + destruct (Pool_create_index np) as [o np'] eqn:Hci.
      destruct (root_construction_indexes b w np o np' Hnp Hci)
        as (ctx1 & Hc1 & _ & _ & Hrun1).
      rewrite Hrun1 in Hnew. destruct o as [u|e]; [destruct u|done].
      injection Hnew as -> <-.
      set (c := active_cache w).
      set (w1 := log [LockEnter c; CreateIndex c; LockExit c]
                   (put_cache c (mkCache (process_pool (caches w c))
                                         (Some np')) w)).
      assert (named_pool (caches w1 (active_cache w1)) = Some np') as Hnp1.
      { simpl. by rewrite fn_lookup_insert. }
      destruct (root_construction_indexes b' w1 np' (Ok tt) np' Hnp1
                  (Hidem _ _ Hci))
        as (ctx2 & Hc2 & _ & _ & Hrun2).
      simpl in Hrun2, Hc2.
      eexists _, _. split; [exact Hrun2|]. split; [by rewrite Hc1, Hc2|].
      intros r. simpl. destruct (decide (c = r)) as [<-|Hne].
      * by rewrite !fn_lookup_insert.
      * by rewrite !(fn_lookup_insert_ne _ _ _ _ Hne).
    + destruct (root_construction_without_pool b w Hnp)
        as (ctx1 & Hc1 & _ & _ & Hrun1).
      rewrite Hrun1 in Hnew. injection Hnew as -> <-.
      destruct (root_construction_without_pool b'
                  (log [LockEnter (active_cache w); LockExit (active_cache w)] w)
                  Hnp)
        as (ctx2 & Hc2 & _ & _ & Hrun2).
      simpl in Hrun2, Hc2.
      eexists _, _. split; [exact Hrun2|]. split; [by rewrite Hc1, Hc2|done].
Qed.

(** *** Registration *)

(** C8.  [add_parent_reference] takes the lock, saves the resource into the
    process pool, saves the handle so obtained into the durable pool exactly
    when there is one, releases the lock and returns the process-pool handle.
    The pools hold the registration as soon as the method has run: a failure
    that follows leaves it in place. *)
Theorem add_parent_reference_registers self ref w new_ref pp' :
  let c := cache self in
  Pool_save (process_pool (caches w c)) ref = (Ok new_ref, pp') ->
  (named_pool (caches w c) = None ->
   exists w',
     add_parent_reference self ref w = (Ok new_ref, w') /\
     calls w' = calls w ++ [LockEnter c; ProcessPoolSave c ref; LockExit c] /\
     caches w' c = mkCache pp' None /\
     (forall r, r ≠ c -> caches w' r = caches w r) /\
     forall e,
       (exec add_parent_reference self ref; @raise unit e) w = (Raise e, w')) /\
  (forall np x np',
     named_pool (caches w c) = Some np ->
     Pool_save np new_ref = (Ok x, np') ->
     exists w',
       add_parent_reference self ref w = (Ok new_ref, w') /\
       calls w' = calls w ++ [LockEnter c; ProcessPoolSave c ref;
                              NamedPoolSave c new_ref; LockExit c] /\
       caches w' c = mkCache pp' (Some np') /\
       (forall r, r ≠ c -> caches w' r = caches w r) /\
       forall e,
         (exec add_parent_reference self ref; @raise unit e) w
         = (Raise e, w')).
Proof.
  intros c Hsave. pose proof (add_parent_reference_run self ref w _ _ Hsave)
    as Hrun. fold c in Hrun.
  split.
  - intros Hnone. rewrite Hnone in Hrun. eexists. split; [exact Hrun|].
    repeat split.
    + simpl. by rewrite fn_lookup_insert.
    + intros r Hne. simpl. by rewrite fn_lookup_insert_ne.
    + intros e. unfold bind. by rewrite Hrun.
  - intros np x np' Hsome Hnamed. rewrite Hsome, Hnamed in Hrun.
    eexists. split; [exact Hrun|]. repeat split.
    + simpl. by rewrite fn_lookup_insert.
    + intros r Hne. simpl. by rewrite !fn_lookup_insert_ne.
    + intros e. unfold bind. by rewrite Hrun.
Qed.

(** C10.  [make_artifact] returns the artifact that [import_data] built, not
    the handle [add_parent_reference] returns for it, which is dropped; by
    then the artifact has been saved into the process pool (and its handle
    into the durable pool, if there is one). *)
Theorem make_artifact_returns_the_imported_artifact
    self type view view_type w artifact w1 new_ref w2 :
  import_data type view view_type w = (Ok artifact, w1) ->
  add_parent_reference self artifact w1 = (Ok new_ref, w2) ->
  make_artifact self type view view_type w = (Ok artifact, w2) /\
  exists evs,
    calls w2
    = calls w1 ++ LockEnter (cache self)
                  :: ProcessPoolSave (cache self) artifact :: evs /\
    (Pool_save (process_pool (caches w1 (cache self))) artifact).1
    = Ok new_ref /\
    process_pool (caches w2 (cache self))
    = (Pool_save (process_pool (caches w1 (cache self))) artifact).2.
Proof.
  intros Himport Hadd. split.
  - unfold make_artifact, bind. by rewrite Himport, Hadd.
  - destruct (Pool_save (process_pool (caches w1 (cache self))) artifact)
      as [o pp'] eqn:Hsave.
    destruct o as [h|e].
    + rewrite (add_parent_reference_run self artifact w1 h pp' Hsave) in Hadd.
      destruct (named_pool (caches w1 (cache self))) as [np|].
      * destruct (Pool_save np h).1; [|done].
        injection Hadd as -> <-. eexists. simpl.
        by rewrite fn_lookup_insert.
      * injection Hadd as -> <-. eexists. simpl.
        by rewrite fn_lookup_insert.
    + exfalso. revert Hadd.
      unfold add_parent_reference, with_lock, bind, process_pool_save, bind,
        get_world, emit, set_cache, lift. simpl.
      by rewrite Hsave.
Qed.

(** *** Plugin names *)

Lemma str_replace_idempotent (old new : ascii) (s : string) :
  old ≠ new ->
  str_replace old new (str_replace old new s) = str_replace old new s.
Proof.
  intros Hne. induction s as [|c s IH]; simpl; [done|].
  rewrite IH. f_equal. repeat case_decide; congruence.
Qed.

Lemma str_replace_removes (old new : ascii) (s : string) :
  old ≠ new -> old ∉ Stdlib.Strings.String.list_ascii_of_string (str_replace old new s).
Proof.
  intros Hne. induction s as [|c s IH]; simpl.
  - apply not_elem_of_nil.
  - apply not_elem_of_cons. split; [|done]. case_decide; congruence.
Qed.

Lemma make_invocation_plugin_action pa act args kwargs key :
  make_invocation pa act args kwargs = Ok key -> plugin_action key = pa.
Proof.
  unfold make_invocation.
  destruct (collate_inputs act args kwargs) as [collated|]; [|done].
  destruct (coerce_user_input act collated) as [callable_args|]; [|done].
  by intros [= <-].
Qed.

(** C9.  [get_action] behaves alike on a plugin name and on that name with
    its underscores turned into hyphens: the outcome (the handle or the
    error) and the world are the same.  The name looked up in the registry
    has no underscore, and every key a call through the handle builds carries
    the qualified name made of that hyphenated plugin name, a colon and the
    action name. *)
Theorem get_action_hyphenates_the_plugin_name self plugin action w :
  let plugin' := str_replace "_" "-" plugin in
  get_action self plugin action w = get_action self plugin' action w /\
  ("_"%char ∉ Stdlib.Strings.String.list_ascii_of_string plugin') /\
  (plugins w !! plugin' = None ->
   get_action self plugin action w
   = (Raise (ValueError ("A plugin named " +:+ repr plugin'
                         +:+ " could not be found.")), w)) /\
  (forall plugin_obj,
     plugins w !! plugin' = Some plugin_obj ->
     actions plugin_obj !! action = None ->
     get_action self plugin action w
     = (Raise (ValueError ("An action named " +:+ repr action
                           +:+ " was not found for plugin "
                           +:+ repr plugin')), w)) /\
  (forall plugin_obj act,
     plugins w !! plugin' = Some plugin_obj ->
     actions plugin_obj !! action = Some act ->
     exists h,
       get_action self plugin action w = (Ok h, w) /\
       forall uargs kwargs key,
         h uargs kwargs
         = deferred_action self (plugin' +:+ ":" +:+ action) act
             (VCallable (action_id act) :: uargs) kwargs /\
         (make_invocation (plugin' +:+ ":" +:+ action) act uargs kwargs
          = Ok key ->
          plugin_action key = plugin' +:+ ":" +:+ action)).
Proof.
  simpl. repeat split.
  - unfold get_action. by rewrite str_replace_idempotent.
  - by apply str_replace_removes.
  - intros Hp. unfold get_action, bind, get_world. by rewrite Hp.
  - intros plugin_obj Hp Ha. unfold get_action, bind, get_world.
    by rewrite Hp, Ha.
  - intros plugin_obj act Hp Ha. eexists. split.
    + unfold get_action, bind, get_world, ret. by rewrite Hp, Ha.
    + intros uargs kwargs key. split; [done|].
      apply make_invocation_plugin_action.
Qed.

(** *** Validation of a collection record *)

Lemma _validate_collection_complete order w :
  complete order -> _validate_collection order w = (Ok tt, w).
Proof.
  destruct order as [|first rest]; [done|]. intros [Hall Hlen].
  unfold _validate_collection.
  assert (forallb (fun elem => bool_decide (total elem = total first))
                  (first :: rest) = true) as ->.
  { apply forallb_forall. intros x Hx. apply bool_decide_eq_true.
    rewrite Forall_forall in Hall. apply Hall. by apply list_elem_of_In. }
  by rewrite bool_decide_eq_true_2.
Qed.

Lemma _validate_collection_incomplete order w :
  order ≠ [] -> ¬ complete order ->
  _validate_collection order w = (Raise AssertionError, w).
Proof.
  destruct order as [|first rest]; [done|]. intros _ Hnot.
  unfold _validate_collection.
  destruct (forallb _ (first :: rest)) eqn:Hall; [|done].
  case_bool_decide as Hlen; [|done].
  exfalso. apply Hnot. split; [|done].
  apply Forall_forall. intros x Hx.
  rewrite forallb_forall in Hall. apply list_elem_of_In, Hall in Hx.
  by apply bool_decide_eq_true in Hx.
Qed.

Lemma disagreement_is_incomplete (order : list IndexedCollectionElement) :
  (exists e1 e2, e1 ∈ order /\ e2 ∈ order /\ total e1 ≠ total e2) \/
  (exists e, e ∈ order /\ Z.of_nat (length order) ≠ total e) ->
  order ≠ [] /\ ¬ complete order.
Proof.
  intros Hbad. split.
  - intros ->. destruct Hbad as [(e1 & _ & H1 & _)|(e & H1 & _)];
      by apply elem_of_nil in H1.
  - destruct order as [|first rest]; [by intros []|].
    intros [Hall Hlen]. rewrite Forall_forall in Hall.
    destruct Hbad as [(e1 & e2 & H1 & H2 & Hne)|(e & H1 & Hne)].
    + apply Hne. by rewrite (Hall _ H1), (Hall _ H2).
    + apply Hne. by rewrite (Hall _ H1).
Qed.

Lemma load_outputs_app self cached_outputs pre rest loaded w :
  load_outputs self cached_outputs (pre ++ rest) loaded w
  = (do loaded' <- load_outputs self cached_outputs pre loaded;
     load_outputs self cached_outputs rest loaded') w.
Proof.
  revert loaded w. induction pre as [|[name ty] pre IH]; intros loaded w.
  - done.
  - simpl. unfold bind.
    destruct (load_output self cached_outputs name ty w) as [[o|e] w1];
      [|done].
    exact (IH _ _).
Qed.

(** C4.  A collection record in which two descriptors declare different
    totals, or whose number of descriptors is not the declared total, is
    rejected with the assertion error before any of its elements is loaded:
    the step that reconstructs it leaves the world, its call log included, as
    it found it.  [_load_cache] then never returns results: it raises that
    error as soon as the outputs declared before the collection have been
    reconstructed. *)
Theorem incomplete_collection_is_rejected
    self cached_outputs name qiime_type items :
  is_collection_type qiime_type = true ->
  cached_outputs !! name = Some (CachedCollection items) ->
  (exists e1 e2, e1 ∈ items.*1 /\ e2 ∈ items.*1 /\ total e1 ≠ total e2) \/
  (exists e, e ∈ items.*1 /\ Z.of_nat (length items.*1) ≠ total e) ->
  (forall w,
     load_output self cached_outputs name qiime_type w
     = (Raise AssertionError, w)) /\
  (forall act key pool w results,
     named_pool (caches w (cache self)) = Some pool ->
     index pool !! key = Some cached_outputs ->
     (name, qiime_type) ∈ outputs act ->
     (_load_cache self act key w).1 ≠ Ok results) /\
  (forall act key pool w pre post loaded w1,
     named_pool (caches w (cache self)) = Some pool ->
     index pool !! key = Some cached_outputs ->
     outputs act = pre ++ (name, qiime_type) :: post ->
     load_outputs self cached_outputs pre []
       (log [IndexGet (cache self) key] w) = (Ok loaded, w1) ->
     _load_cache self act key w = (Raise AssertionError, w1)).
Proof.
  intros Hty Hrec Hbad.
  apply disagreement_is_incomplete in Hbad as [Hne Hnot].
  assert (forall w, load_output self cached_outputs name qiime_type w
                    = (Raise AssertionError, w)) as Hstep.
  { intros w. unfold load_output. rewrite Hty, Hrec. unfold bind.
    by rewrite _validate_collection_incomplete. }
  split; [done|]. split.
  - intros act key pool w results Hpool Hkey Hin.
    unfold _load_cache, the_named_pool, bind, named_pool_of, emit, ret. simpl.
    rewrite Hpool. simpl. rewrite Hkey.
    generalize (log [IndexGet (cache self) key] w) as w0.
    generalize (@nil (string * Output)) as loaded.
    induction (outputs act) as [|[n t] outs IH]; intros loaded w0.
    + by apply elem_of_nil in Hin.
    + simpl. unfold bind at 1.
      apply elem_of_cons in Hin as [[= <- <-]|Hin].
      * by rewrite Hstep.
      * destruct (load_output self cached_outputs n t w0) as [[o|e] w1];
          [|done].
        by apply IH.
  - intros act key pool w pre post loaded w1 Hpool Hkey Houts Hpre.
    unfold _load_cache, the_named_pool, bind, named_pool_of, emit, ret. simpl.
    rewrite Hpool. simpl. rewrite Hkey, Houts, load_outputs_app.
    unfold bind. rewrite Hpre. simpl. unfold bind. by rewrite Hstep.
Qed.

(** *** The order of a collection *)

Lemma insert_by_idx_perm x l : insert_by_idx x l ≡ₚ x :: l.
Proof.
  induction l as [|y l IH]; simpl; [done|].
  destruct (idx x <=? idx y)%Z; [done|].
  rewrite IH. apply Permutation_swap.
Qed.

Lemma sort_by_idx_perm l : sort_by_idx l ≡ₚ l.
Proof.
  induction l as [|x l IH]; simpl; [done|].
  by rewrite insert_by_idx_perm, IH.
Qed.














End Statements.

(** ** Further properties of the methods *)

Section Further.

Context {collaborators : Collaborators}.

(** *** Validation *)

(** X1.  [_validate_collection] never touches the world; it returns exactly
    on the lists that satisfy the completeness invariant, raises [IndexError]
    on the empty list and [AssertionError] on every other list. *)
Theorem _validate_collection_accepts_the_complete_lists order w :
  (_validate_collection order w).2 = w /\
  ((_validate_collection order w).1 = Ok tt <-> complete order) /\
  (order = [] -> (_validate_collection order w).1 = Raise IndexError) /\
  (order ≠ [] -> ¬ complete order ->
   (_validate_collection order w).1 = Raise AssertionError).
Proof.
  split; [|split; [|split]].
  - unfold _validate_collection. by repeat case_match.
  - split.
    + intros Hok. destruct order as [|first rest]; [done|].
      unfold _validate_collection in Hok.
      destruct (forallb _ (first :: rest)) eqn:Hall; [|done].
      case_bool_decide as Hlen; [|done].
      split; [|done]. apply Forall_forall. intros x Hx.
      rewrite forallb_forall in Hall. apply list_elem_of_In, Hall in Hx.
      by apply bool_decide_eq_true in Hx.
    + intros Hc. by rewrite _validate_collection_complete.
  - by intros ->.
  - intros Hne Hnot. by rewrite _validate_collection_incomplete.
Qed.

(** *** Reconstruction *)

Lemma only_loads_named_pool_load (c : CacheRef) (x : CachedOutput) :
  only_logs is_load (named_pool_load c x).
Proof.
  apply only_logs_bind; [apply only_logs_the_named_pool|]. intros pool.
  apply only_logs_bind; [by apply only_logs_emit|]. intros _.
  apply only_logs_lift.
Qed.

Lemma only_loads_load_elements self cached_collection order loaded :
  only_logs is_load (load_elements self cached_collection order loaded).
Proof.
  revert loaded. induction order as [|elem_info rest IH]; intros loaded; simpl.
  - apply only_logs_ret.
  - destruct (collection_get cached_collection elem_info) as [elem|].
    + apply only_logs_bind; [apply only_loads_named_pool_load|].
      intros loaded_elem. apply IH.
    + apply only_logs_raise.
Qed.

Lemma only_loads_load_output self cached_outputs name qiime_type :
  only_logs is_load (load_output self cached_outputs name qiime_type).
Proof.
  unfold load_output. destruct (is_collection_type qiime_type).
  - destruct (cached_outputs !! name) as [[ref|items]|];
      try apply only_logs_raise.
    apply only_logs_bind; [apply only_logs_validate_collection|]. intros _.
    apply only_logs_bind; [apply only_loads_load_elements|]. intros c.
    apply only_logs_ret.
  - destruct (cached_outputs !! name) as [output|];
      try apply only_logs_raise.
    apply only_logs_bind; [apply only_loads_named_pool_load|]. intros v.
    apply only_logs_ret.
Qed.

Lemma only_loads_load_outputs self cached_outputs outs loaded :
  only_logs is_load (load_outputs self cached_outputs outs loaded).
Proof.
  revert loaded. induction outs as [|[name ty] rest IH]; intros loaded; simpl.
  - apply only_logs_ret.
  - apply only_logs_bind; [apply only_loads_load_output|].
    intros o. apply IH.
Qed.

(** X2.  [_load_cache] only reads.  With a durable pool it looks the key up
    in the index once and then does nothing but load from that pool: the
    world it leaves is the one it found plus those calls in the log, and its
    outcome does not depend on what the log already held.  Without a durable
    pool it raises [AttributeError] and leaves the world as it is. *)
Theorem _load_cache_only_reads self act key w :
  (forall pool,
     named_pool (caches w (cache self)) = Some pool ->
     exists loads,
       all_events is_load loads /\
       forall evs0,
         _load_cache self act key (log evs0 w)
         = ((_load_cache self act key w).1,
            log (evs0 ++ IndexGet (cache self) key :: loads) w)) /\
  (named_pool (caches w (cache self)) = None ->
   _load_cache self act key w = (Raise (AttributeError "index"), w)).
Proof.
  split.
  - intros pool Hpool.
    unfold _load_cache, the_named_pool, bind, named_pool_of, emit, ret,
      raise. simpl. rewrite Hpool. simpl.
    destruct (index pool !! key) as [cached_outputs|].
    + destruct (only_loads_load_outputs self cached_outputs (outputs act) [] w)
        as (loads & Hloads & Hrun).
      exists loads. split; [done|]. intros evs0.
      rewrite !log_log, !Hrun. simpl.
      destruct (load_outputs self cached_outputs (outputs act) [] w).1;
        simpl; by rewrite <- app_assoc.
    + exists []. split; [constructor|]. intros evs0. by rewrite log_log.
  - intros Hnone.
    unfold _load_cache, the_named_pool, bind, named_pool_of, raise. simpl.
    by rewrite Hnone.
Qed.

Lemma dict_set_fresh {V} (k : string) (v : V) (d : list (string * V)) :
  k ∉ d.*1 -> dict_set k v d = d ++ [(k, v)].
Proof.
  induction d as [|[k' v'] d IH]; simpl; intros Hfresh; [done|].
  apply not_elem_of_cons in Hfresh as [Hne Hfresh].
  destruct (decide (k' = k)) as [->|_]; [done|]. by rewrite IH.
Qed.

Lemma load_output_agrees self cached_outputs name qiime_type w o w' :
  load_output self cached_outputs name qiime_type w = (Ok o, w') ->
  agrees (is_collection_type qiime_type) o.
Proof.
  unfold load_output. destruct (is_collection_type qiime_type).
  - destruct (cached_outputs !! name) as [[ref|items]|]; try done.
    unfold bind.
    destruct (_validate_collection items.*1 w) as [[u|e] w1]; [|done].
    destruct (load_elements self items (sort_by_idx items.*1) [] w1)
      as [[c|e] w2]; [|done].
    by intros [= <- _].
  - destruct (cached_outputs !! name) as [output|]; [|done].
    unfold bind.
    destruct (named_pool_load (cache self) output w) as [[v|e] w1]; [|done].
    by intros [= <- _].
Qed.

Lemma load_outputs_follow self cached_outputs outs loaded w l w' :
  load_outputs self cached_outputs outs loaded w = (Ok l, w') ->
  NoDup (loaded.*1 ++ outs.*1) ->
  exists vs,
    l = loaded ++ zip outs.*1 vs /\
    Forall2 (fun out o => agrees (is_collection_type out.2) o) outs vs.
Proof.
  revert loaded w. induction outs as [|[name ty] outs IH]; intros loaded w.
  - simpl. intros [= <- _] _. exists []. by rewrite app_nil_r.
  - simpl. unfold bind.
    destruct (load_output self cached_outputs name ty w) as [[o|e] w1] eqn:Ho;
      [|done].
    intros Hrun Hnd.
    assert (name ∉ loaded.*1) as Hfresh.
    { apply NoDup_app in Hnd as (_ & Hdisj & _).
      intros Hin. apply (Hdisj name Hin). by left. }
    rewrite dict_set_fresh in Hrun by done.
    destruct (IH _ _ Hrun) as (vs & -> & Hvs).
    { rewrite fmap_app. simpl. by rewrite <- app_assoc. }
    exists (o :: vs). split.
    + by rewrite <- app_assoc.
    + constructor; [|done]. by eapply load_output_agrees.
Qed.

(** X3.  When [_load_cache] returns, its results list the declared outputs of
    the action, in declaration order, each with one value: a collection for
    an output of collection type, a single loaded value for any other. *)
Theorem _load_cache_results_follow_the_signature self act key w results w' :
  _load_cache self act key w = (Ok results, w') ->
  NoDup (outputs act).*1 ->
  fields results = (outputs act).*1 /\
  Forall2 (fun out o => agrees (is_collection_type out.2) o)
          (outputs act) (values results).
Proof.
  unfold _load_cache, the_named_pool, bind, named_pool_of, emit, ret, raise.
  simpl.
  destruct (named_pool (caches w (cache self))) as [pool|]; [|done]. simpl.
  destruct (index pool !! key) as [cached_outputs|]; [|done].
  destruct (load_outputs self cached_outputs (outputs act) []
              (log [IndexGet (cache self) key] w)) as [[l|e] w1] eqn:Hrun;
    [|done].
  intros [= <- _] Hnd. simpl.
  destruct (load_outputs_follow _ _ _ _ _ _ _ Hrun) as (vs & -> & Hvs);
    [done|].
  simpl. pose proof (Forall2_length _ _ _ Hvs) as Hlen.
  rewrite fst_zip, snd_zip; [done| |]; rewrite length_fmap; lia.
Qed.

(** X4.  The loop over the elements of a collection stops at the first load
    that raises: the elements before it have been loaded, in order, the
    failing load is the last call, the elements after it are not touched and
    the error is the outcome. *)
Theorem load_elements_stops_at_the_first_failure
    self pool items pre elem post refs vs ref e loaded w :
  named_pool (caches w (cache self)) = Some pool ->
  Forall2 (fun el r => collection_get items el = Some r) pre refs ->
  Forall2 (fun r v => Pool_load pool (CachedRef r) = Ok v) refs vs ->
  collection_get items elem = Some ref ->
  Pool_load pool (CachedRef ref) = Raise e ->
  load_elements self items (pre ++ elem :: post) loaded w
  = (Raise e,
     log ((fun r => PoolLoad (cache self) (CachedRef r)) <$> (refs ++ [ref]))
         w).
Proof.
  intros Hpool Hrefs. revert vs loaded w Hpool.
  induction Hrefs as [|el r pre refs Hget _ IH];
    intros vs loaded w Hpool Hvs Helem Hload.
  - simpl. rewrite Helem.
    unfold bind, named_pool_load, the_named_pool, bind, named_pool_of, emit,
      lift, ret. simpl.
    by rewrite Hpool, Hload.
  - apply Forall2_cons_inv_l in Hvs as (v & vs' & Hv & Hvs & ->).
    simpl. rewrite Hget.
    unfold bind, named_pool_load, the_named_pool, bind, named_pool_of, emit,
      lift, ret. simpl.
    rewrite Hpool. simpl. rewrite Hv.
    erewrite IH; [|exact Hpool|exact Hvs|exact Helem|exact Hload].
    by rewrite log_log.
Qed.

(** *** The dispatcher *)

(** X5.  A collection record with no descriptor at all is not a miss: for a
    call whose key is in the index, whose first declared output is of
    collection type and whose record holds the empty collection for it,
    validation raises [IndexError], nothing is loaded, the error propagates
    and the action is not run. *)
Theorem empty_collection_record_raises_IndexError
    self pa act args kwargs w pool key cached_outputs name qiime_type post :
  named_pool (caches w (cache self)) = Some pool ->
  _contains_proxies (tail args) kwargs = false ->
  make_invocation pa act (tail args) kwargs = Ok key ->
  index pool !! key = Some cached_outputs ->
  outputs act = (name, qiime_type) :: post ->
  is_collection_type qiime_type = true ->
  cached_outputs !! name = Some (CachedCollection []) ->
  let c := cache self in
  deferred_action self pa act args kwargs w
  = (Raise IndexError,
     log [LockEnter c; MakeInvocation key; IndexContains c key; IndexGet c key;
          LockExit c] w).
Proof.
  intros Hpool Hprox Hkey Hindex Houts Hty Hrec c. subst c.
  unfold deferred_action, cached_results, with_lock, bind, named_pool_of,
    the_named_pool, bind, named_pool_of, lift, emit, ret. simpl.
  rewrite Hpool, Hprox, Hkey. simpl. rewrite Hpool. simpl.
  rewrite Hindex. rewrite bool_decide_eq_true_2 by done.
  unfold except_KeyError, bind, _load_cache, the_named_pool, bind,
    named_pool_of, emit, ret. simpl.
  rewrite Hpool. simpl. rewrite Hindex, Houts. simpl.
  unfold bind, load_output. rewrite Hty, Hrec. simpl.
  by rewrite !log_log.
Qed.

Lemma with_lock_run {A} (P : Event -> bool) (c : CacheRef) (m : M A) w :
  only_logs P m ->
  exists mid,
    all_events P mid /\
    with_lock c m w = ((m w).1, log (LockEnter c :: mid ++ [LockExit c]) w).
Proof.
  intros Hm. destruct (Hm w) as (mid & Hmid & Hrun).
  exists mid. split; [done|].
  unfold with_lock. rewrite (Hrun [LockEnter c]). by rewrite log_log.
Qed.

Lemma only_consults_the_probe self pa act uargs kwargs :
  only_logs is_cache_consultation
    (do np <- named_pool_of (cache self);
     match np with
     | None => ret None
     | Some _ =>
         if _contains_proxies uargs kwargs then ret None
         else
           do invocation <- lift (make_invocation pa act uargs kwargs);
           exec emit (MakeInvocation invocation);
           do pool <- the_named_pool (cache self) "index";
           exec emit (IndexContains (cache self) invocation);
           if bool_decide (is_Some (index pool !! invocation)) then
             except_KeyError
               (do results <- _load_cache self act invocation;
                ret (Some results))
               (ret None)
           else ret None
     end).
Proof.
  apply only_logs_bind; [apply only_logs_named_pool_of|].
  intros [pool|]; [|apply only_logs_ret].
  destruct (_contains_proxies uargs kwargs); [apply only_logs_ret|].
  apply only_logs_bind; [apply only_logs_lift|]. intros key.
  apply only_logs_bind; [by apply only_logs_emit|]. intros _.
  apply only_logs_bind; [apply only_logs_the_named_pool|]. intros pool'.
  apply only_logs_bind; [by apply only_logs_emit|]. intros _.
  case_bool_decide; [|apply only_logs_ret].
  apply only_logs_except_KeyError; [|apply only_logs_ret].
  apply only_logs_bind; [|intros r; apply only_logs_ret].
  apply only_logs_load_cache.
Qed.

(** X6.  The dispatcher holds the lock while it probes the cache and at no
    other time: whatever the call and however the probe ends (results, a
    miss or an error), what the dispatcher does before it returns, raises or
    hands the call to the action is to take the lock, consult the cache and
    release the lock.  Without a durable pool, or with a proxy among the
    arguments, it consults nothing between taking and releasing the lock,
    and the call is run even if the arguments could not be coerced. *)
Theorem dispatcher_holds_the_lock_only_while_probing
    self pa act args kwargs w :
  let c := cache self in
  (exists d mid,
     dispatch self pa act (tail args) kwargs w d /\
     all_events is_cache_consultation mid /\
     deferred_action self pa act args kwargs w
     = carry_out self act (tail args) kwargs w
         (LockEnter c :: mid ++ [LockExit c]) d) /\
  (named_pool (caches w c) = None \/
   _contains_proxies (tail args) kwargs = true ->
   deferred_action self pa act args kwargs w
   = run_action self act (tail args) kwargs (log [LockEnter c; LockExit c] w)).
Proof.
  intros c. subst c. split.
  - destruct (cached_results_outcome self pa act (tail args) kwargs w)
      as (d & Hd & Ho).
    destruct (with_lock_run is_cache_consultation (cache self) _ w
                (only_consults_the_probe self pa act (tail args) kwargs))
      as (mid & Hmid & Hrun).
    exists d, mid. split; [done|]. split; [done|].
    unfold cached_results in Ho. rewrite Hrun in Ho. simpl in Ho.
    rewrite Ho in Hrun.
    unfold deferred_action, bind, cached_results. rewrite Hrun.
    by destruct d.
  - intros Hskip.
    unfold deferred_action, cached_results, with_lock, bind, named_pool_of,
      ret. simpl.
    destruct (named_pool (caches w (cache self))) as [pool|]; simpl.
    + destruct Hskip as [Hnone|Hproxy]; [done|].
      rewrite Hproxy. by rewrite log_log.
    + by rewrite log_log.
Qed.

(** *** Registration *)

(** X7.  A failing [save] is not caught and the lock is released all the
    same.  When the save into the process pool raises, the durable pool is
    not called.  When the save into the durable pool raises, the error
    propagates although the resource is by then saved into the process pool:
    that registration is not undone. *)
Theorem add_parent_reference_propagates_save_errors self ref w :
  let c := cache self in
  (forall e pp',
     Pool_save (process_pool (caches w c)) ref = (Raise e, pp') ->
     add_parent_reference self ref w
     = (Raise e,
        log [LockEnter c; ProcessPoolSave c ref; LockExit c]
          (put_cache c (mkCache pp' (named_pool (caches w c))) w))) /\
  (forall new_ref pp' np e np',
     Pool_save (process_pool (caches w c)) ref = (Ok new_ref, pp') ->
     named_pool (caches w c) = Some np ->
     Pool_save np new_ref = (Raise e, np') ->
     exists w',
       add_parent_reference self ref w = (Raise e, w') /\
       calls w' = calls w ++ [LockEnter c; ProcessPoolSave c ref;
                              NamedPoolSave c new_ref; LockExit c] /\
       caches w' c = mkCache pp' (Some np')).
Proof.
  intros c. subst c. split.
  - intros e pp' Hsave.
    unfold add_parent_reference, with_lock, bind, process_pool_save, bind,
      get_world, emit, set_cache, lift. simpl. rewrite Hsave. simpl.
    by rewrite !log_put_cache, !log_log.
  - intros new_ref pp' np e np' Hsave Hnp Hnamed.
    rewrite (add_parent_reference_run self ref w new_ref pp' Hsave).
    rewrite Hnp, Hnamed. simpl. eexists. split; [done|].
    split; [done|]. simpl. by rewrite fn_lookup_insert.
Qed.

(** *** Construction *)

Lemma executor_names_from (m : gmap string string) (executors : list Executor)
    (l : string) :
  foldl (fun m v => <[label v := class_name v]> m) m executors !! l
  = match last (filter (fun v => label v = l) executors) with
    | Some v => Some (class_name v)
    | None => m !! l
    end.
Proof.
  revert m. induction executors as [|v executors IH]; intros m; simpl; [done|].
  rewrite IH. rewrite filter_cons. case_decide as Hl.
  - rewrite last_cons.
    destruct (last (filter (fun v0 => label v0 = l) executors)); [done|].
    by rewrite Hl, lookup_insert_eq.
  - destruct (last (filter (fun v0 => label v0 = l) executors)); [done|].
    by rewrite lookup_insert_ne.
Qed.

(** X8.  A root context takes its parallel flag from the argument of the
    constructor, its cache from [get_cache], the action-to-executor mapping
    from the parallel configuration, and has no parent.  Its mapping from
    executor label to executor type is [None] exactly when no parallel
    configuration is loaded; otherwise a label maps to the class name of the
    last executor that carries it, and only the labels of executors are
    mapped. *)
Theorem root_context_reads_the_configuration parallel_arg w ctx w' :
  __init__ None parallel_arg w = (Ok ctx, w') ->
  parallel ctx = parallel_arg /\
  cache ctx = active_cache w /\
  _parent ctx = None /\
  action_executor_mapping ctx
  = config_action_executor_mapping (PARALLEL_CONFIG w) /\
  match parallel_config (PARALLEL_CONFIG w) with
  | None => executor_name_type_mapping ctx = None
  | Some executors =>
      exists m,
        executor_name_type_mapping ctx = Some m /\
        forall l,
          m !! l
          = class_name <$> last (filter (fun v => label v = l) executors)
  end.
Proof.
  unfold __init__, bind, get_world, get_cache, ret. simpl.
  destruct (with_lock (active_cache w) _ w) as [[u|e] w1]; [|done].
  intros [= <- _]. simpl. repeat split.
  destruct (parallel_config (PARALLEL_CONFIG w)) as [executors|]; [|done].
  eexists. split; [done|]. intros l.
  unfold executor_names. rewrite executor_names_from.
  by destruct (last (filter (fun v => label v = l) executors)).
Qed.

(** X9.  When [create_index] raises, the construction of a root context
    raises the same error and yields no context; the lock has been released,
    and the durable pool is left as the failed indexing left it. *)
Theorem failed_indexing_aborts_root_construction parallel_arg w np e np' :
  named_pool (caches w (active_cache w)) = Some np ->
  Pool_create_index np = (Raise e, np') ->
  let c := active_cache w in
  __init__ None parallel_arg w
  = (Raise e,
     log [LockEnter c; CreateIndex c; LockExit c]
       (put_cache c (mkCache (process_pool (caches w c)) (Some np')) w)).
Proof.
  intros Hnp Hci.
  destruct (root_construction_indexes parallel_arg w np (Raise e) np' Hnp Hci)
    as (ctx & _ & _ & _ & Hrun).
  exact Hrun.
Qed.

Lemma in_tree_cache root ctx : in_tree root ctx -> cache ctx = cache root.
Proof.
  induction 1 as [|parent child b w w' _ IH Hnew]; [done|].
  by injection Hnew as <- _.
Qed.

Lemma load_elements_cache c1 c2 items order loaded w :
  cache c1 = cache c2 ->
  load_elements c1 items order loaded w = load_elements c2 items order loaded w.
Proof.
  intros Hc. revert loaded w.
  induction order as [|e order IH]; intros loaded w; simpl; [done|].
  destruct (collection_get items e) as [ref|]; [|done].
  rewrite Hc. unfold bind.
  destruct (named_pool_load (cache c2) (CachedRef ref) w) as [[v|err] w1];
    [|done].
  apply IH.
Qed.

Lemma load_outputs_cache c1 c2 cached_outputs outs loaded w :
  cache c1 = cache c2 ->
  load_outputs c1 cached_outputs outs loaded w
  = load_outputs c2 cached_outputs outs loaded w.
Proof.
  intros Hc. revert loaded w.
  induction outs as [|[name ty] outs IH]; intros loaded w; [done|].
  cbn [load_outputs]. unfold bind at 1 2.
  assert (load_output c1 cached_outputs name ty w
          = load_output c2 cached_outputs name ty w) as ->.
  { unfold load_output. rewrite Hc.
    destruct (is_collection_type ty); [|done].
    destruct (cached_outputs !! name) as [[ref|items]|]; try done.
    unfold bind. destruct (_validate_collection items.*1 w) as [[u|e] w1];
      [|done].
    by rewrite (load_elements_cache c1 c2). }
  destruct (load_output c2 cached_outputs name ty w) as [[o|e] w1]; [|done].
  apply IH.
Qed.

Lemma _load_cache_cache c1 c2 act key w :
  cache c1 = cache c2 -> _load_cache c1 act key w = _load_cache c2 act key w.
Proof.
  intros Hc. unfold _load_cache. rewrite Hc. unfold bind.
  destruct (the_named_pool (cache c2) "index" w) as [[pool|e] w1]; [|done].
  destruct (emit (IndexGet (cache c2) key) w1) as [[u|e] w2]; [|done].
  destruct (index pool !! key) as [cached_outputs|]; [|done].
  by rewrite (load_outputs_cache c1 c2).
Qed.

(** X10.  Every context of a tree works on the pools of the root: for a
    context grown from a root by the constructor, registering a reference,
    making an artifact, reconstructing cached results and probing the cache
    for a call do exactly what they do for the root, in every world. *)
Theorem contexts_of_a_tree_share_the_pools root ctx :
  in_tree root ctx ->
  (forall ref w,
     add_parent_reference ctx ref w = add_parent_reference root ref w) /\
  (forall type view view_type w,
     make_artifact ctx type view view_type w
     = make_artifact root type view view_type w) /\
  (forall act key w, _load_cache ctx act key w = _load_cache root act key w) /\
  (forall pa act uargs kwargs w,
     cached_results ctx pa act uargs kwargs w
     = cached_results root pa act uargs kwargs w).
Proof.
  intros Htree. apply in_tree_cache in Htree as Hc.
  assert (forall ref w,
            add_parent_reference ctx ref w = add_parent_reference root ref w)
    as Hadd.
  { intros ref w. unfold add_parent_reference. by rewrite Hc. }
  split; [done|]. split; [|split].
  - intros type view view_type w. unfold make_artifact, bind.
    destruct (import_data type view view_type w) as [[a|e] w1]; [|done].
    by rewrite Hadd.
  - intros act key w. by apply _load_cache_cache.
  - intros pa act uargs kwargs w. unfold cached_results. rewrite Hc.
    unfold with_lock, bind.
    destruct (named_pool_of (cache root) (log [LockEnter (cache root)] w))
      as [[[pool|]|e] w1]; try done.
    destruct (_contains_proxies uargs kwargs); [done|].
    destruct (lift (make_invocation pa act uargs kwargs) w1)
      as [[key|e] w2]; [|done].
    destruct (emit (MakeInvocation key) w2) as [[u|e] w3]; [|done].
    destruct (the_named_pool (cache root) "index" w3) as [[pool'|e] w4];
      [|done].
    destruct (emit (IndexContains (cache root) key) w4) as [[u'|e] w5];
      [|done].
    case_bool_decide; [|done].
    unfold except_KeyError, bind.
    by rewrite (_load_cache_cache ctx root).
Qed.

(** *** Looking an action up *)

(** X11.  [get_action] only reads the plugin registry: it leaves the world
    as it is (it takes no lock and touches neither pool nor index), and its
    outcome is the same in any two worlds with the same plugins.  The cache
    is consulted when the handle is called, not when it is made. *)
Theorem get_action_only_reads_the_registry self plugin action w :
  (get_action self plugin action w).2 = w /\
  forall w',
    plugins w' = plugins w ->
    (get_action self plugin action w').1 = (get_action self plugin action w).1.
Proof.
  unfold get_action, bind, get_world, raise, ret. simpl. split.
  - by repeat case_match.
  - intros w' ->. by repeat case_match.
Qed.

(** *** The order of a collection *)

Lemma insert_by_idx_filter (z : Z) x l :
  filter (fun y => idx y = z) (insert_by_idx x l)
  = filter (fun y => idx y = z) (x :: l).
Proof.
  induction l as [|y l IH]; simpl; [done|].
  destruct (idx x <=? idx y)%Z eqn:Hle; [done|].
  rewrite filter_cons, IH, !filter_cons.
  apply Z.leb_gt in Hle.
  repeat case_decide; try done; lia.
Qed.

(** X12.  Sorting the descriptors by position is stable: descriptors that
    share a position keep the order in which the record iterates them, so
    they are loaded in that order. *)
Theorem sort_by_idx_is_stable (z : Z) (l : list IndexedCollectionElement) :
  filter (fun y => idx y = z) (sort_by_idx l) = filter (fun y => idx y = z) l.
Proof.
  induction l as [|x l IH]; simpl; [done|].
  by rewrite insert_by_idx_filter, !filter_cons, IH.
Qed.

(** *** Item names *)

Lemma dict_set_keys {V} (k : string) (v : V) (d : list (string * V)) :
  (dict_set k v d).*1 = if decide (k ∈ d.*1) then d.*1 else d.*1 ++ [k].
Proof.
  induction d as [|[k' v'] d IH]; cbn [dict_set fmap list_fmap fst].
  - destruct (decide (k ∈ [])) as [Hin|_]; [|reflexivity].
    by apply elem_of_nil in Hin.
  - destruct (decide (k' = k)) as [->|Hne]; cbn [fmap list_fmap fst].
    + destruct (decide (k ∈ k :: d.*1)) as [_|Hin]; [reflexivity|].
      exfalso. apply Hin. by left.
    + rewrite IH. destruct (decide (k ∈ d.*1)) as [Hin|Hnin].
      * destruct (decide (k ∈ k' :: d.*1)) as [_|Hin']; [reflexivity|].
        exfalso. apply Hin'. by right.
      * destruct (decide (k ∈ k' :: d.*1)) as [Hin'|_]; [|reflexivity].
        apply elem_of_cons in Hin' as [->|Hin']; done.
Qed.

Lemma foldl_dict_set_keys (kvs : list (IndexedCollectionElement * Value))
    (d : ResultCollection) :
  NoDup d.*1 ->
  let c := foldl (fun d ev => dict_set (item_name ev.1) ev.2 d) d kvs in
  NoDup c.*1 /\
  forall k, k ∈ c.*1 <-> k ∈ d.*1 \/ k ∈ item_name <$> kvs.*1.
Proof.
  revert d. induction kvs as [|[e v] kvs IH]; intros d Hnd; simpl.
  - split; [done|]. intros k. split; [by left|].
    intros [Hk|Hk]; [done|]. by apply elem_of_nil in Hk.
  - assert (NoDup (dict_set (item_name e) v d).*1) as Hnd'.
    { rewrite dict_set_keys. case_decide as Hin; [done|].
      apply NoDup_app. split; [done|]. split; [|apply NoDup_singleton].
      intros x Hx Hx'. apply list_elem_of_singleton in Hx' as ->. done. }
    destruct (IH _ Hnd') as [Hnd'' Hkeys]. split; [done|].
    intros k. rewrite Hkeys, dict_set_keys, elem_of_cons.
    case_decide as Hin.
    + split; [intros [?|?]; auto|]. intros [?|[->|?]]; auto.
    + rewrite elem_of_app, list_elem_of_singleton. tauto.
Qed.

Lemma load_elements_Ok self items order loaded w c w' :
  load_elements self items order loaded w = (Ok c, w') ->
  exists vs,
    length vs = length order /\
    c = foldl (fun d ev => dict_set (item_name ev.1) ev.2 d) loaded
              (zip order vs).
Proof.
  revert loaded w. induction order as [|e order IH]; intros loaded w; simpl.
  - intros [= <- _]. by exists [].
  - destruct (collection_get items e) as [ref|]; [|done]. unfold bind.
    destruct (named_pool_load (cache self) (CachedRef ref) w) as [[v|err] w1];
      [|done].
    intros Hrun. destruct (IH _ _ Hrun) as (vs & Hlen & ->).
    exists (v :: vs). split; [simpl; by rewrite Hlen|done].
Qed.

(** X13.  The names of a reconstructed collection are distinct and are
    exactly the item names of the descriptors of the record.  Descriptors
    that share an item name therefore yield one element, and a record that
    passes validation can give a collection with fewer elements than its
    declared total. *)
Theorem reconstructed_collection_has_distinct_names
    self cached_outputs name qiime_type items w c w' :
  is_collection_type qiime_type = true ->
  cached_outputs !! name = Some (CachedCollection items) ->
  load_output self cached_outputs name qiime_type w = (Ok (Collection c), w') ->
  NoDup c.*1 /\
  (forall k, k ∈ c.*1 <-> k ∈ item_name <$> items.*1) /\
  (length c <= length items)%nat.
Proof.
  intros Hty Hrec. unfold load_output. rewrite Hty, Hrec. unfold bind.
  destruct (_validate_collection items.*1 w) as [[u|e] w1]; [|done].
  destruct (load_elements self items (sort_by_idx items.*1) [] w1)
    as [[c'|e] w2] eqn:Hrun; [|done].
  intros [= <- _].
  destruct (load_elements_Ok _ _ _ _ _ _ _ Hrun) as (vs & Hlen & Hc).
  destruct (foldl_dict_set_keys (zip (sort_by_idx items.*1) vs) [])
    as [Hnd Hkeys]; [constructor|].
  rewrite <- Hc in Hnd, Hkeys. rewrite fst_zip in Hkeys by lia.
  assert (forall k, k ∈ c'.*1 <-> k ∈ item_name <$> items.*1) as Hnames.
  { intros k. rewrite Hkeys, sort_by_idx_perm. split; [|by right].
    intros [Hk|Hk]; [|done]. by apply elem_of_nil in Hk. }
  split; [done|]. split; [done|].
  rewrite <- (length_fmap fst c'), <- (length_fmap fst items),
    <- (length_fmap item_name items.*1).
  apply submseteq_length, NoDup_submseteq; [done|].
  intros k. apply Hnames.
Qed.

End Further.

(** ** The statements on sample data *)

#[local] Existing Instance Demo.collaborators.

Lemma Demo_create_index_idempotent (p p' : Pool) :
  Demo.create_index p = (Ok tt, p') -> Demo.create_index p' = (Ok tt, p').
Proof. by intros [= <-]. Qed.

Lemma call_reuses_executes_or_propagates_witness :
  exists plugin_obj act,
    plugins (Demo.world_with (Some Demo.pool_complete))
      !! str_replace "_" "-" "my_plugin" = Some plugin_obj /\
    actions plugin_obj !! "summarize" = Some act /\
    forall uargs kwargs w,
    exists d evs,
      let pa := str_replace "_" "-" "my_plugin" +:+ ":" +:+ "summarize" in
      dispatch Demo.root pa act uargs kwargs w d /\
      (forall d', dispatch Demo.root pa act uargs kwargs w d' -> d' = d) /\
      all_events
        (fun ev => negb (is_execution ev) && negb (is_registration ev)) evs /\
      Demo.handle Demo.summarize "my-plugin:summarize" uargs kwargs w
      = match d with
        | Reuse results => (Ok results, log evs w)
        | Execute =>
            if parallel Demo.root
            then Action_bind_parsl act Demo.root uargs kwargs
                   (log (evs ++ [BindParsl (action_id act) uargs kwargs]) w)
            else Action_bind act (__init__ (Some Demo.root) false) uargs kwargs
                   (log (evs ++ [Bind (action_id act) uargs kwargs]) w)
        | Propagate e => (Raise e, log evs w)
        end /\
      (forall results, d = Reuse results ->
         exists evs',
           all_events
             (fun ev => negb (is_execution ev) && negb (is_registration ev))
             evs' /\
           Demo.handle Demo.summarize "my-plugin:summarize" uargs kwargs
             (log evs w)
           = (Ok results, log evs' (log evs w))).
Proof.
  apply (call_reuses_executes_or_propagates
           (collaborators := Demo.collaborators)
           Demo.root "my_plugin" "summarize"
           (Demo.world_with (Some Demo.pool_complete))
           (Demo.handle Demo.summarize "my-plugin:summarize")
           (Demo.world_with (Some Demo.pool_complete))).
  reflexivity.
Defined.

Lemma proxy_argument_skips_the_cache_witness :
  let w := Demo.world_with (Some Demo.pool_complete) in
  exists plugin_obj act evs,
    plugins w !! str_replace "_" "-" "my_plugin" = Some plugin_obj /\
    actions plugin_obj !! "summarize" = Some act /\
    evs = [LockEnter (cache Demo.root); LockExit (cache Demo.root)] /\
    all_events (fun ev => negb (is_cache_consultation ev)) evs /\
    Demo.handle Demo.summarize "my-plugin:summarize" [VProxy 7] [] w
    = if parallel Demo.root
      then Action_bind_parsl act Demo.root [VProxy 7] []
             (log (evs ++ [BindParsl (action_id act) [VProxy 7] []]) w)
      else Action_bind act (__init__ (Some Demo.root) false) [VProxy 7] []
             (log (evs ++ [Bind (action_id act) [VProxy 7] []]) w).
Proof.
  apply (proxy_argument_skips_the_cache Demo.root "my_plugin" "summarize"
           (Demo.world_with (Some Demo.pool_complete))
           (Demo.handle Demo.summarize "my-plugin:summarize")
           (Demo.world_with (Some Demo.pool_complete))).
  - reflexivity.
  - left. exists (VProxy 7). split; [left|reflexivity].
Defined.

Lemma missing_key_is_a_miss_other_errors_propagate_witness :
  let w := Demo.world_with (Some Demo.pool_stale) in
  named_pool (caches w (cache Demo.root)) = Some Demo.pool_stale /\
  _contains_proxies [VInt 1] [] = false /\
  exists evs,
    all_events is_probe_step evs /\
    deferred_action Demo.root "my-plugin:filter_table" Demo.filter_table
      [VCallable "filter_table"; VInt 1] [] w
    = Action_bind Demo.filter_table (__init__ (Some Demo.root) false)
        [VInt 1] [] (log (evs ++ [Bind "filter_table" [VInt 1] []]) w).
Proof.
  split; [reflexivity|]. split; [reflexivity|].
  destruct (missing_key_is_a_miss_other_errors_propagate
              Demo.root "my-plugin:filter_table" Demo.filter_table
              [VCallable "filter_table"; VInt 1] []
              (Demo.world_with (Some Demo.pool_stale)) Demo.pool_stale
              eq_refl eq_refl) as [Hstale _].
  apply (Hstale Demo.key_filter (KeyError "no such data")).
  - reflexivity.
  - eexists. reflexivity.
  - reflexivity.
Defined.

Lemma incomplete_collection_is_rejected_witness :
  let w := Demo.world_with (Some Demo.pool_short) in
  load_output Demo.root {[ "out" := CachedCollection Demo.four_of_five ]}
    "out" "Collection[Thing]" w
  = (Raise AssertionError, w).
Proof.
  destruct (incomplete_collection_is_rejected Demo.root
              {[ "out" := CachedCollection Demo.four_of_five ]}
              "out" "Collection[Thing]" Demo.four_of_five) as [Hstep _].
  - reflexivity.
  - reflexivity.
  - right. exists (mkElem "d" 3 5). split; [left|]. vm_compute. discriminate.
  - apply Hstep.
Defined.


Lemma child_context_inherits_witness :
  let child := mkContext ∅ (Some {[ "default" := "ThreadPoolExecutor" ]})
                 false 0%nat (Some Demo.root) in
  let grandchild := mkContext ∅ (Some {[ "default" := "ThreadPoolExecutor" ]})
                      false 0%nat (Some child) in
  in_tree Demo.root grandchild /\
  cache grandchild = cache Demo.root /\
  parallel grandchild = parallel Demo.root.
Proof.
  intros child grandchild.
  assert (in_tree Demo.root grandchild) as Htree.
  { apply (in_tree_child Demo.root child grandchild true
             (Demo.world_with None) (Demo.world_with None)); [|reflexivity].
    apply (in_tree_child Demo.root Demo.root child true
             (Demo.world_with None) (Demo.world_with None)); [|reflexivity].
    apply in_tree_root. }
  split; [exact Htree|].
  destruct child_context_inherits as (_ & _ & Hinherit).
  destruct (Hinherit Demo.root grandchild Htree) as (Hcache & Hpar & _).
  split; [exact Hcache|exact Hpar].
Defined.

Lemma index_is_built_at_root_construction_only_witness :
  let w := Demo.world_with (Some Demo.pool_unindexed) in
  let w1 := (__init__ None false w).2 in
  __init__ None false w = (Ok Demo.root, w1) /\
  calls w1 = [LockEnter 0%nat; CreateIndex 0%nat; LockExit 0%nat] /\
  exists ctx2 w2,
    __init__ None true w1 = (Ok ctx2, w2) /\
    cache ctx2 = cache Demo.root /\
    forall r, caches w2 r = caches w1 r.
Proof.
  intros w w1.
  assert (__init__ None false w = (Ok Demo.root, w1)) as Hroot
    by reflexivity.
  split; [exact Hroot|]. split; [reflexivity|].
  destruct index_is_built_at_root_construction_only
    as (_ & _ & _ & _ & _ & Hsecond).
  apply (Hsecond Demo_create_index_idempotent false true w Demo.root w1 Hroot).
Defined.

Lemma add_parent_reference_registers_witness :
  let w := Demo.world_with (Some Demo.pool_empty) in
  exists w',
    add_parent_reference Demo.root (VArtifact "t") w
    = (Ok (VAlias "pool" "t"), w') /\
    calls w' = calls w ++ [LockEnter 0%nat;
                           ProcessPoolSave 0%nat (VArtifact "t");
                           NamedPoolSave 0%nat (VAlias "pool" "t");
                           LockExit 0%nat] /\
    caches w' 0%nat
    = mkCache (Demo.save (mkPool ∅ [] ∅) (VArtifact "t")).2
              (Some (Demo.save Demo.pool_empty (VAlias "pool" "t")).2) /\
    (forall r, r ≠ 0%nat -> caches w' r = caches w r) /\
    forall e,
      (exec add_parent_reference Demo.root (VArtifact "t"); @raise unit e) w
      = (Raise e, w').
Proof.
  destruct (add_parent_reference_registers
              (collaborators := Demo.collaborators) Demo.root (VArtifact "t")
              (Demo.world_with (Some Demo.pool_empty))
              (VAlias "pool" "t")
              (Demo.save (mkPool ∅ [] ∅) (VArtifact "t")).2)
    as [_ Hdurable]; [reflexivity|].
  apply (Hdurable Demo.pool_empty (VAlias "pool" "t")
           (Demo.save Demo.pool_empty (VAlias "pool" "t")).2);
    reflexivity.
Defined.

Lemma get_action_hyphenates_the_plugin_name_witness :
  let w := Demo.world_with None in
  get_action Demo.root "my_plugin" "summarize" w
  = get_action Demo.root "my-plugin" "summarize" w /\
  get_action Demo.root "no_such_plugin" "summarize" w
  = (Raise (ValueError "A plugin named 'no-such-plugin' could not be found."),
     w).
Proof.
  split.
  - destruct (get_action_hyphenates_the_plugin_name Demo.root "my_plugin"
                "summarize" (Demo.world_with None)) as [Hsame _].
    exact Hsame.
  - destruct (get_action_hyphenates_the_plugin_name Demo.root "no_such_plugin"
                "summarize" (Demo.world_with None)) as (_ & _ & Hmissing & _).
    apply Hmissing. reflexivity.
Defined.

Lemma make_artifact_returns_the_imported_artifact_witness :
  let w := Demo.world_with (Some Demo.pool_empty) in
  let w2 := (add_parent_reference Demo.root (VArtifact "t") w).2 in
  add_parent_reference Demo.root (VArtifact "t") w
  = (Ok (VAlias "pool" "t"), w2) /\
  make_artifact Demo.root (VStr "Table") (VStr "t") None w
  = (Ok (VArtifact "t"), w2) /\
  VArtifact "t" ≠ VAlias "pool" "t".
Proof.
  intros w w2.
  assert (add_parent_reference Demo.root (VArtifact "t") w
          = (Ok (VAlias "pool" "t"), w2)) as Hadd by reflexivity.
  split; [exact Hadd|]. split; [|discriminate].
  destruct (make_artifact_returns_the_imported_artifact
              (collaborators := Demo.collaborators) Demo.root
              (VStr "Table") (VStr "t") None w (VArtifact "t") w
              (VAlias "pool" "t") w2) as [Hmake _];
    [reflexivity|exact Hadd|].
  exact Hmake.
Defined.

(** C1, as stated, fails.  The record of the call is indexed in an active
    durable pool, no argument is a proxy and every element the record refers
    to loads; the record declares a total of five for its four elements.  The
    call returns no cached results and the action is not run: the assertion
    error propagates.  And where the index built at root construction does
    not hold the key, and nothing adds it, the same call made twice runs the
    action twice. *)
Lemma corrupt_record_is_neither_reused_nor_executed :
  let w := Demo.world_with (Some Demo.pool_short) in
  let h := Demo.handle Demo.summarize "my-plugin:summarize" in
  get_action Demo.root "my_plugin" "summarize" w = (Ok h, w) /\
  named_pool (caches w (cache Demo.root)) = Some Demo.pool_short /\
  _contains_proxies [VInt 1] [] = false /\
  make_invocation "my-plugin:summarize" Demo.summarize [VInt 1] []
  = Ok Demo.key_summarize /\
  index Demo.pool_short !! Demo.key_summarize
  = Some {[ "out" := CachedCollection Demo.four_of_five ]} /\
  Forall (fun it => exists v, Pool_load Demo.pool_short (CachedRef it.2) = Ok v)
         Demo.four_of_five /\
  (h [VInt 1] [] w).1 = Raise AssertionError /\
  List.filter is_execution (calls (h [VInt 1] [] w).2) = [] /\
  let w0 := Demo.world_with (Some Demo.pool_empty) in
  let w1 := (h [VInt 1] [] w0).2 in
  (exists results, (h [VInt 1] [] w0).1 = Ok results) /\
  (exists results, (h [VInt 1] [] w1).1 = Ok results) /\
  List.filter is_execution (calls (h [VInt 1] [] w1).2)
  = [Bind "summarize" [VInt 1] []; Bind "summarize" [VInt 1] []].
Proof.
  repeat split; try reflexivity.
  - repeat constructor; eexists; reflexivity.
  - eexists; reflexivity.
  - eexists; reflexivity.
Qed.

(** C3, as stated, fails.  The record of the call has no entry for the
    declared output while everything the pool stores is in place.  The
    missing-key error of reconstruction comes from the record, not from a
    load (none is attempted), and it does not propagate: the call is treated
    as a miss and the action is run. *)
Lemma missing_record_entry_is_swallowed :
  let w := Demo.world_with (Some Demo.pool_partial) in
  let h := Demo.handle Demo.filter_table "my-plugin:filter_table" in
  get_action Demo.root "my_plugin" "filter_table" w = (Ok h, w) /\
  storage Demo.pool_partial = Demo.stored /\
  index Demo.pool_partial !! Demo.key_filter = Some ∅ /\
  _load_cache Demo.root Demo.filter_table Demo.key_filter w
  = (Raise (KeyError "table"), log [IndexGet 0%nat Demo.key_filter] w) /\
  (h [VInt 1] [] w).1
  = Ok (mkResults ["table"] [Single (VArtifact "filter_table/table")]) /\
  calls (h [VInt 1] [] w).2
  = [LockEnter 0%nat; MakeInvocation Demo.key_filter;
     IndexContains 0%nat Demo.key_filter; IndexGet 0%nat Demo.key_filter;
     LockExit 0%nat; Bind "filter_table" [VInt 1] []].
Proof. repeat split; reflexivity. Qed.

Lemma _validate_collection_accepts_the_complete_lists_witness :
  let w := Demo.world_with None in
  (_validate_collection Demo.five_items.*1 w).1 = Ok tt /\
  (_validate_collection Demo.four_of_five.*1 w).1 = Raise AssertionError /\
  (_validate_collection [] w).1 = Raise IndexError.
Proof.
  intros w. split; [|split].
  - destruct (_validate_collection_accepts_the_complete_lists
                Demo.five_items.*1 w)
      as (_ & Hiff & _).
    apply Hiff. split; [by repeat constructor|reflexivity].
  - destruct (_validate_collection_accepts_the_complete_lists
                Demo.four_of_five.*1 w)
      as (_ & _ & _ & Hbad).
    apply Hbad; [discriminate|]. intros [_ Hlen]. vm_compute in Hlen.
    discriminate.
  - destruct (_validate_collection_accepts_the_complete_lists
                [] w)
      as (_ & _ & Hempty & _).
    by apply Hempty.
Defined.

Lemma _load_cache_only_reads_witness :
  let w := Demo.world_with (Some Demo.pool_complete) in
  exists loads,
    all_events is_load loads /\
    forall evs0,
      _load_cache Demo.root Demo.summarize Demo.key_summarize (log evs0 w)
      = ((_load_cache Demo.root Demo.summarize Demo.key_summarize w).1,
         log (evs0 ++ IndexGet 0%nat Demo.key_summarize :: loads) w).
Proof.
  destruct (_load_cache_only_reads (collaborators := Demo.collaborators)
              Demo.root Demo.summarize Demo.key_summarize
              (Demo.world_with (Some Demo.pool_complete))) as [Hreads _].
  apply (Hreads Demo.pool_complete). reflexivity.
Defined.

Lemma _load_cache_results_follow_the_signature_witness :
  let w := Demo.world_with (Some Demo.pool_complete) in
  let run := _load_cache Demo.root Demo.summarize Demo.key_summarize w in
  exists results,
    run.1 = Ok results /\
    fields results = ["out"] /\
    Forall2 (fun out o => agrees (is_collection_type out.2) o)
            (outputs Demo.summarize) (values results).
Proof.
  intros w run.
  assert (exists results, run = (Ok results, run.2)) as [results Hrun].
  { eexists. reflexivity. }
  exists results. split; [by rewrite Hrun|].
  apply (_load_cache_results_follow_the_signature
           (collaborators := Demo.collaborators) Demo.root Demo.summarize
           Demo.key_summarize w results run.2 Hrun).
  repeat constructor. apply not_elem_of_nil.
Defined.

Lemma load_elements_stops_at_the_first_failure_witness :
  let w := Demo.world_with (Some Demo.pool_without_c) in
  load_elements Demo.root Demo.five_items (sort_by_idx Demo.five_items.*1) [] w
  = (Raise (KeyError "no such data"),
     log [PoolLoad 0%nat (CachedRef (VAlias "pool" "a"));
          PoolLoad 0%nat (CachedRef (VAlias "pool" "b"));
          PoolLoad 0%nat (CachedRef (VAlias "pool" "c"))] w).
Proof.
  apply (load_elements_stops_at_the_first_failure
           (collaborators := Demo.collaborators) Demo.root Demo.pool_without_c
           Demo.five_items [mkElem "a" 0 5; mkElem "b" 1 5] (mkElem "c" 2 5)
           [mkElem "d" 3 5; mkElem "e" 4 5]
           [VAlias "pool" "a"; VAlias "pool" "b"]
           [VArtifact "a"; VArtifact "b"] (VAlias "pool" "c")
           (KeyError "no such data") []
           (Demo.world_with (Some Demo.pool_without_c)));
    try reflexivity; repeat constructor.
Defined.

Lemma empty_collection_record_raises_IndexError_witness :
  let w := Demo.world_with (Some Demo.pool_no_descriptor) in
  deferred_action Demo.root "my-plugin:summarize" Demo.summarize
    [VCallable "summarize"; VInt 1] [] w
  = (Raise IndexError,
     log [LockEnter 0%nat; MakeInvocation Demo.key_summarize;
          IndexContains 0%nat Demo.key_summarize;
          IndexGet 0%nat Demo.key_summarize; LockExit 0%nat] w).
Proof.
  apply (empty_collection_record_raises_IndexError
           (collaborators := Demo.collaborators) Demo.root
           "my-plugin:summarize" Demo.summarize [VCallable "summarize"; VInt 1]
           [] (Demo.world_with (Some Demo.pool_no_descriptor))
           Demo.pool_no_descriptor Demo.key_summarize
           {[ "out" := CachedCollection [] ]} "out" "Collection[Thing]" []);
    reflexivity.
Defined.

Lemma dispatcher_holds_the_lock_only_while_probing_witness :
  let w := Demo.world_with None in
  deferred_action Demo.root "my-plugin:summarize" Demo.summarize
    [VCallable "summarize"; VCallable "not an input"] [] w
  = run_action Demo.root Demo.summarize [VCallable "not an input"] []
      (log [LockEnter 0%nat; LockExit 0%nat] w).
Proof.
  destruct (dispatcher_holds_the_lock_only_while_probing
              (collaborators := Demo.collaborators) Demo.root
              "my-plugin:summarize" Demo.summarize
              [VCallable "summarize"; VCallable "not an input"] []
              (Demo.world_with None)) as [_ Hskip].
  apply Hskip. left. reflexivity.
Defined.

Lemma add_parent_reference_propagates_save_errors_witness :
  let w := Demo.world_with (Some Demo.pool_complete) in
  exists w',
    add_parent_reference (collaborators := Demo.strict) Demo.root
      (VArtifact "a") w
    = (Raise (ValueError "already saved"), w') /\
    calls w' = calls w ++ [LockEnter 0%nat;
                           ProcessPoolSave 0%nat (VArtifact "a");
                           NamedPoolSave 0%nat (VAlias "pool" "a");
                           LockExit 0%nat] /\
    caches w' 0%nat
    = mkCache (Demo.save (mkPool ∅ [] ∅) (VArtifact "a")).2
              (Some Demo.pool_complete).
Proof.
  destruct (add_parent_reference_propagates_save_errors
              (collaborators := Demo.strict) Demo.root (VArtifact "a")
              (Demo.world_with (Some Demo.pool_complete))) as [_ Hnamed].
  apply (Hnamed (VAlias "pool" "a")
           (Demo.save (mkPool ∅ [] ∅) (VArtifact "a")).2 Demo.pool_complete
           (ValueError "already saved") Demo.pool_complete);
    reflexivity.
Defined.

Lemma root_context_reads_the_configuration_witness :
  let w := Demo.world_with (Some Demo.pool_unindexed) in
  let ctx := (mkContext ∅ (Some {[ "default" := "ThreadPoolExecutor" ]})
                true 0%nat None) in
  __init__ None true w = (Ok ctx, (__init__ None true w).2) /\
  parallel ctx = true /\
  exists m,
    executor_name_type_mapping ctx = Some m /\
    m !! "default" = Some "ThreadPoolExecutor" /\
    m !! "other" = None.
Proof.
  intros w ctx.
  assert (__init__ None true w = (Ok ctx, (__init__ None true w).2)) as Hroot
    by reflexivity.
  split; [exact Hroot|].
  destruct (root_context_reads_the_configuration
              (collaborators := Demo.collaborators) true w ctx _ Hroot)
    as (Hpar & _ & _ & _ & m & Hm & Hlookup).
  split; [exact Hpar|]. exists m. split; [exact Hm|].
  split; rewrite Hlookup; reflexivity.
Defined.

Lemma failed_indexing_aborts_root_construction_witness :
  let w := Demo.world_with (Some Demo.pool_unindexed) in
  __init__ (collaborators := Demo.strict) None false w
  = (Raise (RuntimeError "unreadable pool"),
     log [LockEnter 0%nat; CreateIndex 0%nat; LockExit 0%nat]
       (put_cache 0%nat (mkCache (mkPool ∅ [] ∅) (Some Demo.pool_unindexed))
          w)).
Proof.
  apply (failed_indexing_aborts_root_construction
           (collaborators := Demo.strict) false
           (Demo.world_with (Some Demo.pool_unindexed)) Demo.pool_unindexed
           (RuntimeError "unreadable pool") Demo.pool_unindexed);
    reflexivity.
Defined.

Lemma contexts_of_a_tree_share_the_pools_witness :
  let child := mkContext ∅ (Some {[ "default" := "ThreadPoolExecutor" ]})
                 false 0%nat (Some Demo.root) in
  in_tree Demo.root child /\
  forall ref w,
    add_parent_reference child ref w = add_parent_reference Demo.root ref w.
Proof.
  intros child.
  assert (in_tree Demo.root child) as Htree.
  { apply (in_tree_child Demo.root Demo.root child true
             (Demo.world_with None) (Demo.world_with None)); [|reflexivity].
    apply in_tree_root. }
  split; [exact Htree|].
  destruct (contexts_of_a_tree_share_the_pools
              (collaborators := Demo.collaborators) Demo.root child Htree)
    as [Hadd _].
  exact Hadd.
Defined.

Lemma get_action_only_reads_the_registry_witness :
  let w := Demo.world_with None in
  let w' := Demo.world_with (Some Demo.pool_complete) in
  (get_action Demo.root "my_plugin" "summarize" w).2 = w /\
  (get_action Demo.root "my_plugin" "nothing" w').1
  = (get_action Demo.root "my_plugin" "nothing" w).1.
Proof.
  intros w w'.
  destruct (get_action_only_reads_the_registry
              (collaborators := Demo.collaborators) Demo.root "my_plugin"
              "summarize" w) as [Hsame _].
  destruct (get_action_only_reads_the_registry
              (collaborators := Demo.collaborators) Demo.root "my_plugin"
              "nothing" w) as [_ Hregistry].
  split; [exact Hsame|]. apply Hregistry. reflexivity.
Defined.

Lemma sort_by_idx_is_stable_witness :
  let l := [mkElem "x" 1 3; mkElem "y" 0 3; mkElem "z" 1 3] in
  filter (fun y => idx y = 1) (sort_by_idx l) = [mkElem "x" 1 3; mkElem "z" 1 3].
Proof.
  intros l. rewrite (sort_by_idx_is_stable 1 l). reflexivity.
Defined.

Lemma reconstructed_collection_has_distinct_names_witness :
  let w := Demo.world_with (Some Demo.pool_complete) in
  let record : gmap string CachedOutput :=
    {[ "out" := CachedCollection Demo.two_of_a_name ]} in
  complete Demo.two_of_a_name.*1 /\
  load_output Demo.root record "out" "Collection[Thing]" w
  = (Ok (Collection [("a", VArtifact "b")]),
     (load_output Demo.root record "out" "Collection[Thing]" w).2) /\
  (length [("a", VArtifact "b")] <= length Demo.two_of_a_name)%nat.
Proof.
  intros w record.
  assert (load_output Demo.root record "out" "Collection[Thing]" w
          = (Ok (Collection [("a", VArtifact "b")]),
             (load_output Demo.root record "out" "Collection[Thing]" w).2))
    as Hrun by reflexivity.
  split; [split; [by repeat constructor|reflexivity]|].
  split; [exact Hrun|].
  destruct (reconstructed_collection_has_distinct_names
              (collaborators := Demo.collaborators) Demo.root record "out"
              "Collection[Thing]" Demo.two_of_a_name w
              [("a", VArtifact "b")] _ eq_refl eq_refl Hrun)
    as (_ & _ & Hlen).
  exact Hlen.
Defined.
